(** * ProPrompter: the markup parser, the teleprompter view and the history view

    A shallow embedding of the application source (the parser [parseText],
    the component [TeleprompterView], the query [filteredAndSortedPrompts]
    of [HistoryView] and the handlers of [App]) and of [types.ts].

    Conventions.
    - A JavaScript string is the list of its UTF-16 code units ([jsstring]).
    - [Date.now()] is an integer number of milliseconds: timestamps are [Z],
      and every handler that reads the clock takes the reading as an argument.
    - [speed], [fontSize] and the scroll offset are fractional numbers; in
      the view they are modelled as rationals ([Q]), which is enough for
      their order and their ranges; the scroll loop is modelled a second
      time with binary64 doubles ([ScrollLoop]), where the rounding
      matters.
    - [useState] cells are fields of a record; a handler is a function from
      the record to the record. *)

From Equations Require Import Equations.
From Stdlib Require Import Floats.
From Stdlib Require Uint63.
From Stdlib Require Import String Ascii DecimalString DecimalPos DecimalZ.
From Stdlib Require Import List Arith ZArith NArith QArith Qminmax Qround
  Bool Lia Lqa Permutation Sorted.
Import ListNotations.
Close Scope Q_scope.

(* ===================================================================== *)
(** ** JavaScript strings                                                 *)
(* ===================================================================== *)

Module JS.

Definition char := N.
Definition jsstring := list char.

(** A literal, written as a Rocq string of 8-bit characters. *)
Definition str (s : string) : jsstring :=
  List.map N_of_ascii (list_ascii_of_string s).

Definition STAR : char := 42%N.      (* '*' *)
Definition LBRACKET : char := 91%N.  (* '[' *)
Definition RBRACKET : char := 93%N.  (* ']' *)
Definition HYPHEN : char := 45%N.    (* '-' *)

Definition jsstring_eqb (s t : jsstring) : bool :=
  if list_eq_dec N.eq_dec s t then true else false.

(** [s.startsWith(t)] *)
Fixpoint startsWith (s t : jsstring) {struct t} : bool :=
  match t, s with
  | [], _ => true
  | _ :: _, [] => false
  | d :: t', c :: s' => N.eqb c d && startsWith s' t'
  end.

(** [s.endsWith(t)] *)
Definition endsWith (s t : jsstring) : bool :=
  startsWith (rev s) (rev t).

(** [s.slice(start, end)], negative indices counting from the end. *)
Definition slice (s : jsstring) (start end_ : Z) : jsstring :=
  let len := Z.of_nat (length s) in
  let from := if (start <? 0)%Z then Z.max (len + start) 0 else Z.min start len in
  let to := if (end_ <? 0)%Z then Z.max (len + end_) 0 else Z.min end_ len in
  firstn (Z.to_nat (to - from)) (skipn (Z.to_nat from) s).

(** [s.includes(t)] *)
Fixpoint includes (s t : jsstring) : bool :=
  startsWith s t ||
  match s with
  | [] => false
  | _ :: s' => includes s' t
  end.

(** [s < t] on strings: lexicographic on code units. *)
Fixpoint ltb (s t : jsstring) : bool :=
  match s, t with
  | _, [] => false
  | [], _ :: _ => true
  | c :: s', d :: t' => N.ltb c d || (N.eqb c d && ltb s' t')
  end.

(** LineTerminator code points: the characters that [.] does not match. *)
Definition isLineTerminator (c : char) : bool :=
  N.eqb c 10 || N.eqb c 13 || N.eqb c 8232 || N.eqb c 8233.

(** WhiteSpace and LineTerminator code points: the characters of [\s]. *)
Definition isWhiteSpace (c : char) : bool :=
  (N.leb 9 c && N.leb c 13) || N.eqb c 32 || N.eqb c 160 || N.eqb c 5760 ||
  (N.leb 8192 c && N.leb c 8202) || N.eqb c 8232 || N.eqb c 8233 ||
  N.eqb c 8239 || N.eqb c 8287 || N.eqb c 12288 || N.eqb c 65279.

(** [n.toString()] for an integer [n]. *)
Definition toString (n : Z) : jsstring :=
  str (DecimalString.NilZero.string_of_int (Z.to_int n)).

End JS.

Import JS.

(* ===================================================================== *)
(** ** The markup parser: [parseText]                                     *)
(* ===================================================================== *)

Module Markup.

(** [.*?\*\*] continued from the current position: the shortest run of
    characters other than line terminators that is followed by two stars.
    Returns the run and the text after the closing stars. *)
Fixpoint lazyUntilStars (s : jsstring) : option (jsstring * jsstring) :=
  match s with
  | [] => None
  | c :: s' =>
      if startsWith s [STAR; STAR] then Some ([], skipn 2 s)
      else if isLineTerminator c then None
      else match lazyUntilStars s' with
           | Some (run, rest) => Some (c :: run, rest)
           | None => None
           end
  end.

(** [.*?\]] continued from the current position. *)
Fixpoint lazyUntilBracket (s : jsstring) : option (jsstring * jsstring) :=
  match s with
  | [] => None
  | c :: s' =>
      if N.eqb c RBRACKET then Some ([], s')
      else if isLineTerminator c then None
      else match lazyUntilBracket s' with
           | Some (run, rest) => Some (c :: run, rest)
           | None => None
           end
  end.

(** One sticky match of [(\*\*.*?\*\*|\[.*?\])] at the start of [s]: the
    matched token and the text after it.  The second alternative is tried
    when the first one fails. *)
Definition matchHere (s : jsstring) : option (jsstring * jsstring) :=
  let bracket :=
    match s with
    | c :: s' =>
        if N.eqb c LBRACKET then
          match lazyUntilBracket s' with
          | Some (run, rest) => Some (LBRACKET :: run ++ [RBRACKET], rest)
          | None => None
          end
        else None
    | [] => None
    end in
  if startsWith s [STAR; STAR] then
    match lazyUntilStars (skipn 2 s) with
    | Some (run, rest) => Some ([STAR; STAR] ++ run ++ [STAR; STAR], rest)
    | None => bracket
    end
  else bracket.

Lemma lazyUntilStars_length s run rest :
  lazyUntilStars s = Some (run, rest) -> length rest < length s.
Proof.
  revert run rest. induction s as [|c s IH]; intros run rest; simpl; [discriminate|].
  destruct (N.eqb c STAR && _) eqn:E.
  - intros [= <- <-]. destruct s; simpl in *.
    + rewrite andb_false_r in E. discriminate.
    + lia.
  - destruct (isLineTerminator c); [discriminate|].
    destruct (lazyUntilStars s) as [[r t]|]; [|discriminate].
    intros [= <- <-]. specialize (IH _ _ eq_refl). lia.
Qed.

Lemma lazyUntilBracket_length s run rest :
  lazyUntilBracket s = Some (run, rest) -> length rest < S (length s).
Proof.
  revert run rest. induction s as [|c s IH]; intros run rest; simpl; [discriminate|].
  destruct (N.eqb c RBRACKET).
  - intros [= <- <-]. lia.
  - destruct (isLineTerminator c); [discriminate|].
    destruct (lazyUntilBracket s) as [[r t]|]; [|discriminate].
    intros [= <- <-]. specialize (IH _ _ eq_refl). lia.
Qed.

Lemma matchHere_length s tok rest :
  matchHere s = Some (tok, rest) -> length rest < length s.
Proof.
  unfold matchHere.
  assert (B : forall tok rest,
    match s with
    | c :: s' =>
        if N.eqb c LBRACKET then
          match lazyUntilBracket s' with
          | Some (run, rest) => Some (LBRACKET :: run ++ [RBRACKET], rest)
          | None => None
          end
        else None
    | [] => None
    end = Some (tok, rest) -> length rest < length s).
  { intros tok' rest'. destruct s as [|c s]; [discriminate|].
    destruct (N.eqb c LBRACKET); [|discriminate].
    destruct (lazyUntilBracket s) as [[r t]|] eqn:E; [|discriminate].
    intros [= <- <-]. apply lazyUntilBracket_length in E. simpl. lia. }
  destruct (startsWith s [STAR; STAR]) eqn:S2; [|apply B].
  destruct (lazyUntilStars (skipn 2 s)) as [[r t]|] eqn:E; [|apply B].
  intros [= <- <-]. apply lazyUntilStars_length in E.
  destruct s as [|a [|b s]]; simpl in *; lia.
Qed.

Definition inspect {A} (a : A) : {b | a = b} := exist _ a eq_refl.

(** [text.split(/(\*\*.*?\*\*|\[.*?\])/g)] from the current position, with
    [piece] the characters of the current piece read so far.  At every
    position the pattern is tried; on a match the piece and the captured
    token are emitted and the scan resumes after the token, otherwise the
    character joins the piece. *)
Equations? splitFrom (piece : jsstring) (s : jsstring) : list jsstring
  by wf (length s) lt :=
  splitFrom piece [] := [piece];
  splitFrom piece (c :: s') with inspect (matchHere (c :: s')) := {
    | exist _ (Some (tok, rest)) _ => piece :: tok :: splitFrom [] rest;
    | exist _ None _ => splitFrom (piece ++ [c]) s' }.
Proof.
  all: try (apply matchHere_length in e; exact e).
  all: simpl; lia.
Qed.

Definition split (text : jsstring) : list jsstring := splitFrom [] text.

(** The elements that [parseText] returns. *)
Inductive span :=
| Emphasis (content : jsstring)             (* <strong>content</strong> *)
| Bookmark (anchor : jsstring) (name : jsstring) (* <span id=anchor>- name -</span> *)
| Plain (content : jsstring).               (* <span>content</span> *)

(** [name.replace(/\s+/g, '-')] *)
Fixpoint replaceWhiteSpace (s : jsstring) : jsstring :=
  match s with
  | [] => []
  | c :: s' =>
      if isWhiteSpace c then
        match s' with
        | d :: _ => if isWhiteSpace d then replaceWhiteSpace s'
                    else HYPHEN :: replaceWhiteSpace s'
        | [] => [HYPHEN]
        end
      else c :: replaceWhiteSpace s'
  end.

(** The callback of [parts.map]. *)
Definition renderPart (part : jsstring) : span :=
  if startsWith part [STAR; STAR] && endsWith part [STAR; STAR] then
    Emphasis (slice part 2 (-2))
  else if startsWith part [LBRACKET] && endsWith part [RBRACKET] then
    let bookmarkName := slice part 1 (-1) in
    Bookmark (str "bookmark-" ++ replaceWhiteSpace bookmarkName) bookmarkName
  else Plain part.

Definition parseText (text : jsstring) : list span :=
  List.map renderPart (split text).

(** The text of a span with the delimiters that [slice] removed put back. *)
Definition rawText (sp : span) : jsstring :=
  match sp with
  | Emphasis c => [STAR; STAR] ++ c ++ [STAR; STAR]
  | Bookmark _ n => [LBRACKET] ++ n ++ [RBRACKET]
  | Plain c => c
  end.

Definition rejoin (spans : list span) : jsstring :=
  concat (List.map rawText spans).

End Markup.

(* ===================================================================== *)
(** ** [types.ts]                                                         *)
(* ===================================================================== *)

Module Types.

Inductive FontStyle := font_inter | font_lora | font_roboto_mono.
Inductive Alignment := align_left | align_center | align_right.
Inductive Mode := day | night.
Inductive Direction := ltr | rtl.

Record PromptSettings := {
  speed : Q;
  fontSize : Q;
  fontStyle : FontStyle;
  alignment : Alignment;
  mode : Mode;
  direction : Direction
}.

Record Prompt := {
  id : jsstring;
  title : jsstring;
  text : jsstring;
  settings : PromptSettings;
  startTime : option Z;   (* startTime?: number *)
  endTime : option Z;     (* endTime?: number *)
  createdAt : Z
}.

(** [keyof PromptSettings] and [PromptSettings[K]]. *)
Inductive SettingKey :=
  kSpeed | kFontSize | kFontStyle | kAlignment | kMode | kDirection.

Definition SettingValue (k : SettingKey) : Type :=
  match k with
  | kSpeed | kFontSize => Q
  | kFontStyle => FontStyle
  | kAlignment => Alignment
  | kMode => Mode
  | kDirection => Direction
  end.

(** [{ ...s, [key]: value }] *)
Definition withSetting (k : SettingKey) : SettingValue k -> PromptSettings -> PromptSettings :=
  match k with
  | kSpeed => fun v s =>
      {| speed := v; fontSize := fontSize s; fontStyle := fontStyle s;
         alignment := alignment s; mode := mode s; direction := direction s |}
  | kFontSize => fun v s =>
      {| speed := speed s; fontSize := v; fontStyle := fontStyle s;
         alignment := alignment s; mode := mode s; direction := direction s |}
  | kFontStyle => fun v s =>
      {| speed := speed s; fontSize := fontSize s; fontStyle := v;
         alignment := alignment s; mode := mode s; direction := direction s |}
  | kAlignment => fun v s =>
      {| speed := speed s; fontSize := fontSize s; fontStyle := fontStyle s;
         alignment := v; mode := mode s; direction := direction s |}
  | kMode => fun v s =>
      {| speed := speed s; fontSize := fontSize s; fontStyle := fontStyle s;
         alignment := alignment s; mode := v; direction := direction s |}
  | kDirection => fun v s =>
      {| speed := speed s; fontSize := fontSize s; fontStyle := fontStyle s;
         alignment := alignment s; mode := mode s; direction := v |}
  end.

(** [{ ...p, settings: s }] *)
Definition withSettings (s : PromptSettings) (p : Prompt) : Prompt :=
  {| id := id p; title := title p; text := text p; settings := s;
     startTime := startTime p; endTime := endTime p; createdAt := createdAt p |}.

End Types.

Import Types.

Definition DEFAULT_SETTINGS : PromptSettings :=
  {| speed := 2; fontSize := 6; fontStyle := font_inter;
     alignment := align_center; mode := night; direction := ltr |}.

Definition createNewPrompt (now : Z) (settings : PromptSettings) : Prompt :=
  {| id := toString now;
     title := str "Untitled Prompt";
     text :=
       str "Welcome to ProPrompter AI! Paste your script here. " ++ [10; 10]%N ++
       str "You can **highlight** important text by wrapping it in double asterisks. " ++
       [10; 10]%N ++
       str "Add a [bookmark] to jump to specific sections.";
     settings := settings;
     startTime := None; endTime := None;
     createdAt := now |}.

(* ===================================================================== *)
(** ** The component [TeleprompterView]                                   *)
(* ===================================================================== *)

Module TeleprompterView.

(** What the [keydown] listener sees.  The listener is installed by an
    effect whose dependencies are [[speed, fontSize, onBack]]; it calls the
    [togglePlay] and reads the [speed] and [fontSize] of the render in which
    the effect last ran.  [onBack] does not change while the view is
    mounted, so the listener is replaced exactly when [speed] or [fontSize]
    changes. *)
Record Listener := {
  seenSpeed : Q;
  seenFontSize : Q;
  seenStartTime : option Z
}.

(** The [useState] cells of the component, and the installed listener. *)
Record State := {
  prompt : Prompt;
  isPlaying : bool;
  scrollPos : Q;
  startTime : option Z;
  keydown : Listener
}.

Definition speedOf (st : State) : Q := speed (settings (prompt st)).
Definition fontSizeOf (st : State) : Q := fontSize (settings (prompt st)).

Definition capture (st : State) : Listener :=
  {| seenSpeed := speedOf st; seenFontSize := fontSizeOf st;
     seenStartTime := startTime st |}.

(** The first render: [useState(initialPrompt)], [useState(false)],
    [useState(0)], [useState(undefined)]. *)
Definition mount (initialPrompt : Prompt) : State :=
  {| prompt := initialPrompt; isPlaying := false; scrollPos := 0;
     startTime := None;
     keydown := {| seenSpeed := speed (settings initialPrompt);
                   seenFontSize := fontSize (settings initialPrompt);
                   seenStartTime := None |} |}.

(** A render after a state change: the [keydown] effect runs again when one
    of its dependencies differs from the previous render. *)
Definition rerender (st : State) : State :=
  if Qeq_bool (seenSpeed (keydown st)) (speedOf st) &&
     Qeq_bool (seenFontSize (keydown st)) (fontSizeOf st)
  then st
  else {| prompt := prompt st; isPlaying := isPlaying st;
          scrollPos := scrollPos st; startTime := startTime st;
          keydown := capture st |}.

Definition updateSetting (k : SettingKey) (v : SettingValue k) (st : State) : State :=
  {| prompt := withSettings (withSetting k v (settings (prompt st))) (prompt st);
     isPlaying := isPlaying st; scrollPos := scrollPos st;
     startTime := startTime st; keydown := keydown st |}.

(** [!startTime] *)
Definition notSet (t : option Z) : bool :=
  match t with
  | None => true
  | Some n => Z.eqb n 0
  end.

(** [togglePlay], as created in a render in which [startTime] was [seen]. *)
Definition togglePlay (seen : option Z) (now : Z) (st : State) : State :=
  {| prompt := prompt st; isPlaying := negb (isPlaying st);
     scrollPos := scrollPos st;
     startTime := if notSet seen then Some now else startTime st;
     keydown := keydown st |}.

(** [handleFinish]: the record passed to [onFinish]; the view is unmounted
    by [App] afterwards. *)
Definition handleFinish (now : Z) (st : State) : Prompt :=
  {| id := id (prompt st); title := title (prompt st); text := text (prompt st);
     settings := settings (prompt st);
     Types.startTime := startTime st; endTime := Some now;
     createdAt := createdAt (prompt st) |}.

(** The callback [scroll], with [contentRef.current.offsetHeight] measured
    as [offsetHeight]. *)
Definition scroll (offsetHeight : Z) (st : State) : State :=
  if Qlt_le_dec (scrollPos st) (inject_Z offsetHeight) then
    {| prompt := prompt st; isPlaying := isPlaying st;
       scrollPos := (scrollPos st + speedOf st / 10)%Q;
       startTime := startTime st; keydown := keydown st |}
  else
    {| prompt := prompt st; isPlaying := false; scrollPos := scrollPos st;
       startTime := startTime st; keydown := keydown st |}.

(** What the user and the display do to a mounted view. *)
Inductive Event :=
| ClickPlayPause (now : Z)        (* the play/pause button *)
| KeySpace (now : Z)
| KeyArrowUp | KeyArrowDown | KeyArrowRight | KeyArrowLeft
| ClickSpeedMinus | ClickSpeedPlus
| ChangeSpeed (value : Q)         (* the speed range input *)
| ClickFontMinus | ClickFontPlus
| ChangeFontSize (value : Q)      (* the font size range input *)
| ClickAlignment (a : Alignment)
| ChangeFontStyle (f : FontStyle)
| ClickMode
| Frame (offsetHeight : Z).       (* an animation frame *)

Definition handle (e : Event) (st : State) : State :=
  match e with
  | ClickPlayPause now => togglePlay (startTime st) now st
  | KeySpace now => togglePlay (seenStartTime (keydown st)) now st
  | KeyArrowUp =>
      updateSetting kSpeed (Qmin 10 (seenSpeed (keydown st) + 0.5)) st
  | KeyArrowDown =>
      updateSetting kSpeed (Qmax 0 (seenSpeed (keydown st) - 0.5)) st
  | KeyArrowRight =>
      updateSetting kFontSize (Qmin 20 (seenFontSize (keydown st) + 0.5)) st
  | KeyArrowLeft =>
      updateSetting kFontSize (Qmax 1 (seenFontSize (keydown st) - 0.5)) st
  | ClickSpeedMinus => updateSetting kSpeed (Qmax 0 (speedOf st - 0.5)) st
  | ClickSpeedPlus => updateSetting kSpeed (Qmin 10 (speedOf st + 0.5)) st
  | ChangeSpeed v => updateSetting kSpeed v st
  | ClickFontMinus => updateSetting kFontSize (Qmax 1 (fontSizeOf st - 0.5)) st
  | ClickFontPlus => updateSetting kFontSize (Qmin 20 (fontSizeOf st + 0.5)) st
  | ChangeFontSize v => updateSetting kFontSize v st
  | ClickAlignment a => updateSetting kAlignment a st
  | ChangeFontStyle f => updateSetting kFontStyle f st
  | ClickMode =>
      updateSetting kMode
        (match mode (settings (prompt st)) with night => day | day => night end) st
  | Frame h =>
      (* the effect on [[isPlaying, scroll]] keeps [scroll] scheduled while
         the view is playing and cancels it otherwise *)
      if isPlaying st then scroll h st else st
  end.

(** One event: the handler runs, then the component renders again. *)
Definition step (e : Event) (st : State) : State := rerender (handle e st).

Definition run (es : list Event) (st : State) : State :=
  fold_left (fun s e => step e s) es st.

Definition isToggle (e : Event) : bool :=
  match e with
  | ClickPlayPause _ | KeySpace _ => true
  | _ => false
  end.

Definition inRange (st : State) : Prop :=
  (0 <= speedOf st <= 10)%Q /\ (1 <= fontSizeOf st <= 20)%Q.

(** The listener was installed in a render with the present [speed] and
    [fontSize]. *)
Definition listenerFresh (st : State) : Prop :=
  (seenSpeed (keydown st) == speedOf st)%Q /\
  (seenFontSize (keydown st) == fontSizeOf st)%Q.

End TeleprompterView.

(* ===================================================================== *)
(** ** [String.prototype.toLowerCase]                                     *)
(* ===================================================================== *)

(** The lower case of a string as the language defines it (the default case
    conversion of Unicode, with the one context rule that does not depend on
    the language, the final sigma), for strings of Basic Latin characters
    (U+0000 to U+007F) and the Greek letters U+0391 to U+03A9 and U+03B1 to
    U+03C9.  Other characters are outside this model. *)
Module Lowercase.

Definition CAPITAL_SIGMA : char := 931%N.   (* U+03A3 *)
Definition FINAL_SIGMA : char := 962%N.     (* U+03C2 *)
Definition SMALL_SIGMA : char := 963%N.     (* U+03C3 *)

Definition isBasicLatin (c : char) : bool := N.ltb c 128.

Definition isLatinCapital (c : char) : bool := N.leb 65 c && N.leb c 90.
Definition isLatinSmall (c : char) : bool := N.leb 97 c && N.leb c 122.

(** U+0391 to U+03A9; U+03A2 is not a character. *)
Definition isGreekCapital (c : char) : bool :=
  N.leb 913 c && N.leb c 937 && negb (N.eqb c 930).

(** U+03B1 to U+03C9, the final sigma among them. *)
Definition isGreekSmall (c : char) : bool := N.leb 945 c && N.leb c 969.

Definition inScope (c : char) : bool :=
  isBasicLatin c || isGreekCapital c || isGreekSmall c.

(** The property Cased, on the characters in scope. *)
Definition isCased (c : char) : bool :=
  isLatinCapital c || isLatinSmall c || isGreekCapital c || isGreekSmall c.

(** The property Case_Ignorable, on the characters in scope: the
    apostrophe, the full stop, the colon, the circumflex and the grave
    accent. *)
Definition isCaseIgnorable (c : char) : bool :=
  N.eqb c 39 || N.eqb c 46 || N.eqb c 58 || N.eqb c 94 || N.eqb c 96.

(** The lower case of a Basic Latin character. *)
Definition lowerLatin (c : char) : char :=
  if isLatinCapital c then (c + 32)%N else c.

(** The lower case of a character by itself. *)
Definition lowerUnit (c : char) : char :=
  if isLatinCapital c || isGreekCapital c then (c + 32)%N else c.

(** A cased letter follows, after case-ignorable characters if any. *)
Fixpoint casedFollows (s : jsstring) : bool :=
  match s with
  | [] => false
  | c :: s' => if isCaseIgnorable c then casedFollows s' else isCased c
  end.

(** The lower case of [s]; [casedBefore] says that a cased letter precedes,
    with only case-ignorable characters in between.  A capital sigma after
    a cased letter and not before one is the final sigma. *)
Fixpoint lowerFrom (casedBefore : bool) (s : jsstring) : jsstring :=
  match s with
  | [] => []
  | c :: s' =>
      (if N.eqb c CAPITAL_SIGMA then
         if casedBefore && negb (casedFollows s') then FINAL_SIGMA
         else SMALL_SIGMA
       else lowerUnit c)
      :: lowerFrom (if isCaseIgnorable c then casedBefore else isCased c) s'
  end.

Definition toLowerCase (s : jsstring) : jsstring := lowerFrom false s.

End Lowercase.

(* ===================================================================== *)
(** ** The scroll loop in double precision                                *)
(* ===================================================================== *)

(** The callback [scroll] and the effect that schedules it, on the cells
    they read and write, with the numbers as the binary64 doubles that they
    are in the program. *)
Module ScrollLoop.

Record State := {
  speed : float;
  scrollPos : float;
  isPlaying : bool
}.

(** The callback [scroll]: [scrollPos < offsetHeight], [prev + speed / 10]. *)
Definition scroll (offsetHeight : float) (st : State) : State :=
  if (scrollPos st <? offsetHeight)%float then
    {| speed := speed st;
       scrollPos := (scrollPos st + speed st / 10)%float;
       isPlaying := isPlaying st |}
  else
    {| speed := speed st; scrollPos := scrollPos st; isPlaying := false |}.






End ScrollLoop.

(* ===================================================================== *)
(** ** The range inputs of the teleprompter view                          *)
(* ===================================================================== *)

Module RangeInput.
Import TeleprompterView.

(** The value of [<input type="range" min max step>] when the user asks for
    [requested]: the element keeps its value between [min] and [max] and on
    the steps counted from [min]; of two nearest steps it takes the higher,
    and a step above [max] gives way to the one below. *)
Definition rangeInput (min max step requested : Q) : Q :=
  let v := Qmax min (Qmin max requested) in
  let w := (min + inject_Z (Qfloor ((v - min) / step + (1 # 2))) * step)%Q in
  if Qle_bool w max then w else (w - step)%Q.

(** The speed input: [min="0" max="10" step="0.1"]. *)
Definition speedInput (requested : Q) : Q := rangeInput 0 10 0.1 requested.

(** The font size input: [min="1" max="20" step="0.5"]. *)
Definition fontSizeInput (requested : Q) : Q := rangeInput 1 20 0.5 requested.

(** The event that reaches the view when the user asks an input for a
    value: [onChange] receives [parseFloat(e.target.value)], the value of
    the element. *)
Definition deliver (e : Event) : Event :=
  match e with
  | ChangeSpeed requested => ChangeSpeed (speedInput requested)
  | ChangeFontSize requested => ChangeFontSize (fontSizeInput requested)
  | _ => e
  end.

End RangeInput.

(* ===================================================================== *)
(** ** Arrays in the heap                                                 *)
(* ===================================================================== *)

(** [filter] returns a new array and [sort] sorts the array it is called on
    in place, so arrays are kept in a heap and named by references. *)
Module Heap.

Definition ref := nat.
Definition heap (A : Type) := list (list A).

(** A computation on the heap; [None] is a dangling reference. *)
Definition M (A B : Type) := heap A -> option (B * heap A).

Definition ret {A B} (b : B) : M A B := fun h => Some (b, h).

Definition bind {A B C} (m : M A B) (f : B -> M A C) : M A C :=
  fun h => match m h with
           | Some (b, h') => f b h'
           | None => None
           end.

Definition read {A} (r : ref) : M A (list A) :=
  fun h => match nth_error h r with
           | Some a => Some (a, h)
           | None => None
           end.

Definition alloc {A} (a : list A) : M A ref :=
  fun h => Some (length h, h ++ [a]).

Fixpoint update {A} (h : heap A) (r : ref) (a : list A) : heap A :=
  match h, r with
  | [], _ => []
  | _ :: h', O => a :: h'
  | b :: h', S r' => b :: update h' r' a
  end.

Definition write {A} (r : ref) (a : list A) : M A unit :=
  fun h => match nth_error h r with
           | Some _ => Some (tt, update h r a)
           | None => None
           end.

End Heap.

Notation "x <- m ;; f" := (Heap.bind m (fun x => f))
  (at level 61, m at next level, right associativity).

(* ===================================================================== *)
(** ** The component [HistoryView]                                        *)
(* ===================================================================== *)

Module HistoryView.

Inductive SortKey := byCreatedAt | byTitle.   (* 'createdAt' | 'title' *)
Inductive SortOrder := asc | desc.

(** [a[sortKey] > b[sortKey]] *)
Definition gt (sortKey : SortKey) (a b : Prompt) : bool :=
  match sortKey with
  | byCreatedAt => Z.gtb (createdAt a) (createdAt b)
  | byTitle => JS.ltb (title b) (title a)
  end.

(** [a[sortKey] < b[sortKey]] *)
Definition lt (sortKey : SortKey) (a b : Prompt) : bool :=
  match sortKey with
  | byCreatedAt => Z.ltb (createdAt a) (createdAt b)
  | byTitle => JS.ltb (title a) (title b)
  end.

(** The comparator given to [sort]. *)
Definition compareFn (sortKey : SortKey) (sortOrder : SortOrder) (a b : Prompt) : Z :=
  let comparison :=
    (if gt sortKey a b then 1
     else if lt sortKey a b then -1
     else 0)%Z in
  match sortOrder with
  | desc => (- comparison)%Z
  | asc => comparison
  end.

Section ArraySort.
Context {A : Type}.
Variable comparefn : A -> A -> Z.

(** [Array.prototype.sort(comparefn)] is a stable sort; it is taken to be
    the stable insertion sort. *)
Fixpoint insert (x : A) (l : list A) : list A :=
  match l with
  | [] => [x]
  | y :: l' => if (comparefn x y <=? 0)%Z then x :: l else y :: insert x l'
  end.

Fixpoint sorted (l : list A) : list A :=
  match l with
  | [] => []
  | x :: l' => insert x (sorted l')
  end.

(** [arr.sort(comparefn)]: sorts [arr] in place and returns [arr]. *)
Definition Array_sort (arr : Heap.ref) : Heap.M A Heap.ref :=
  a <- Heap.read arr ;;
  _ <- Heap.write arr (sorted a) ;;
  Heap.ret arr.

(** [arr.filter(pred)]: a new array. *)
Definition Array_filter (pred : A -> bool) (arr : Heap.ref) : Heap.M A Heap.ref :=
  a <- Heap.read arr ;;
  Heap.alloc (List.filter pred a).

End ArraySort.

Section Query.

(** [String.prototype.toLowerCase] *)
Variable toLowerCase : jsstring -> jsstring.

(** The callback of [prompts.filter]. *)
Definition matches (searchTerm : jsstring) (p : Prompt) : bool :=
  includes (toLowerCase (title p)) (toLowerCase searchTerm) ||
  includes (toLowerCase (text p)) (toLowerCase searchTerm).

(** [filteredAndSortedPrompts], on the array [prompts] of the heap. *)
Definition filteredAndSortedPrompts (searchTerm : jsstring)
    (sortKey : SortKey) (sortOrder : SortOrder) (prompts : Heap.ref)
    : Heap.M Prompt Heap.ref :=
  filtered <- Array_filter (matches searchTerm) prompts ;;
  Array_sort (compareFn sortKey sortOrder) filtered.

(** The contents of the arrays that [filteredAndSortedPrompts] builds. *)
Definition filtered (searchTerm : jsstring) (prompts : list Prompt) : list Prompt :=
  List.filter (matches searchTerm) prompts.

Definition view (searchTerm : jsstring) (sortKey : SortKey)
    (sortOrder : SortOrder) (prompts : list Prompt) : list Prompt :=
  sorted (compareFn sortKey sortOrder) (filtered searchTerm prompts).

End Query.

(** An instance of [toLowerCase] for texts of ASCII characters. *)
Definition asciiLower (s : jsstring) : jsstring :=
  List.map (fun c => if (N.leb 65 c && N.leb c 90)%bool then (c + 32)%N else c) s.

End HistoryView.

(* ===================================================================== *)
(** ** The component [App]                                                *)
(* ===================================================================== *)

Module App.

(** [handleStart]: the prompt handed to the teleprompter view. *)
Definition handleStart (now : Z) (p : Prompt) : Prompt :=
  {| id := toString now; title := title p; text := text p;
     settings := settings p; startTime := startTime p; endTime := endTime p;
     createdAt := now |}.

(** [handleFinishPrompt]: the new history. *)
Definition handleFinishPrompt (finishedPrompt : Prompt) (prev : list Prompt) : list Prompt :=
  finishedPrompt :: prev.

(** [handleDeletePrompt]: the new history; [confirmed] is the answer to
    [window.confirm]. *)
Definition handleDeletePrompt (confirmed : bool) (id : jsstring) (prev : list Prompt) : list Prompt :=
  if confirmed then List.filter (fun p => negb (jsstring_eqb (Types.id p) id)) prev
  else prev.

End App.

(* ===================================================================== *)
(** ** The component [EditorView]                                         *)
(* ===================================================================== *)

Module EditorView.

(** [handleTextChange]: the prompt passed to [onPromptChange]. *)
Definition handleTextChange (value : jsstring) (prompt : Prompt) : Prompt :=
  {| id := id prompt; title := title prompt; text := value;
     settings := settings prompt; startTime := startTime prompt;
     endTime := endTime prompt; createdAt := createdAt prompt |}.

(** [handleTitleChange] *)
Definition handleTitleChange (value : jsstring) (prompt : Prompt) : Prompt :=
  {| id := id prompt; title := value; text := text prompt;
     settings := settings prompt; startTime := startTime prompt;
     endTime := endTime prompt; createdAt := createdAt prompt |}.

(** [handleDirectionChange] *)
Definition handleDirectionChange (value : Direction) (prompt : Prompt) : Prompt :=
  withSettings (withSetting kDirection value (settings prompt)) prompt.

(** What the user does in the editor form. *)
Inductive Edit :=
| TypeText (value : jsstring)
| TypeTitle (value : jsstring)
| SelectDirection (value : Direction).

Definition edit (e : Edit) (prompt : Prompt) : Prompt :=
  match e with
  | TypeText v => handleTextChange v prompt
  | TypeTitle v => handleTitleChange v prompt
  | SelectDirection d => handleDirectionChange d prompt
  end.

End EditorView.

(* ===================================================================== *)
(** ** A card of the history list                                         *)
(* ===================================================================== *)

Module HistoryCard.

(** What [p.startTime && p.endTime && `... Duration: ...`] renders after the
    date: nothing for [undefined], the number [0] for a timestamp [0], and
    otherwise the label with [Math.round((p.endTime - p.startTime)/1000)]
    seconds. *)
Inductive Rendered :=
| Nothing
| Zero
| Duration (seconds : Z).

(** [Math.round(n / 1000)] for an integer [n]: the nearest integer, a half
    going up. *)
Definition roundSeconds (n : Z) : Z := ((n + 500) / 1000)%Z.

Definition duration (p : Prompt) : Rendered :=
  match startTime p with
  | None => Nothing
  | Some s =>
      if Z.eqb s 0 then Zero
      else match endTime p with
           | None => Nothing
           | Some e =>
               if Z.eqb e 0 then Zero else Duration (roundSeconds (e - s))
           end
  end.

End HistoryCard.

(* ===================================================================== *)
(** ** The state of [App] and its transitions                             *)
(* ===================================================================== *)

Module AppState.

Inductive View := editor | teleprompter | history.

(** The [useState] cells of [App], and the state of the teleprompter view
    while it is mounted. *)
Record State := {
  view : View;
  promptsHistory : list Prompt;
  activePrompt : Prompt;
  mounted : option TeleprompterView.State
}.

(** The first render: [useLocalStorage('promptsHistory', [])] gives the
    stored list, [useState(createNewPrompt())] a new prompt. *)
Definition init (now : Z) (stored : list Prompt) : State :=
  {| view := editor; promptsHistory := stored;
     activePrompt := createNewPrompt now DEFAULT_SETTINGS; mounted := None |}.

(** [onPromptChange = setActivePrompt] *)
Definition onPromptChange (p : Prompt) (s : State) : State :=
  {| view := view s; promptsHistory := promptsHistory s; activePrompt := p;
     mounted := mounted s |}.

(** [handleStart]; the teleprompter view is mounted with the new active
    prompt. *)
Definition handleStart (now : Z) (s : State) : State :=
  let p := App.handleStart now (activePrompt s) in
  {| view := teleprompter; promptsHistory := promptsHistory s;
     activePrompt := p; mounted := Some (TeleprompterView.mount p) |}.

(** [handleFinishPrompt] *)
Definition handleFinishPrompt (finishedPrompt : Prompt) (s : State) : State :=
  {| view := editor;
     promptsHistory := App.handleFinishPrompt finishedPrompt (promptsHistory s);
     activePrompt := activePrompt s; mounted := None |}.

(** [handleBackToEditor] *)
Definition handleBackToEditor (confirmed : bool) (s : State) : State :=
  if confirmed then
    {| view := editor; promptsHistory := promptsHistory s;
       activePrompt := activePrompt s; mounted := None |}
  else s.

(** [handleLoadPrompt], up to the timer. *)
Definition handleLoadPrompt (now : Z) (promptToLoad : Prompt) (s : State) : State :=
  {| view := editor; promptsHistory := promptsHistory s;
     activePrompt := createNewPrompt now (settings promptToLoad);
     mounted := mounted s |}.

(** The callback that [handleLoadPrompt] gives to [setTimeout]. *)
Definition loadTimeout (promptToLoad : Prompt) (s : State) : State :=
  onPromptChange
    (EditorView.handleTitleChange (title promptToLoad)
       (EditorView.handleTextChange (text promptToLoad) (activePrompt s))) s.

(** [handleDeletePrompt] *)
Definition handleDeletePrompt (confirmed : bool) (id : jsstring) (s : State) : State :=
  {| view := view s;
     promptsHistory := App.handleDeletePrompt confirmed id (promptsHistory s);
     activePrompt := activePrompt s; mounted := mounted s |}.

Definition setView (v : View) (s : State) : State :=
  {| view := v; promptsHistory := promptsHistory s;
     activePrompt := activePrompt s; mounted := mounted s |}.

(** What the user and the display do to the application.  Each event comes
    from the view that is shown. *)
Inductive Event :=
| EditorEdit (e : EditorView.Edit)
| EditorStart (now : Z)                   (* Start Prompting *)
| EditorViewHistory                       (* History *)
| Teleprompter (e : TeleprompterView.Event)
| TeleprompterFinish (now : Z)            (* Stop and Save, Finish *)
| TeleprompterBack (confirmed : bool)     (* Back, Escape *)
| HistoryLoad (now : Z) (index : nat)     (* Load Prompt, on a record *)
| HistoryDelete (confirmed : bool) (index : nat) (* Delete Prompt, on a record *)
| HistoryBack.

Definition step (e : Event) (s : State) : State :=
  match view s, e with
  | editor, EditorEdit e' => onPromptChange (EditorView.edit e' (activePrompt s)) s
  | editor, EditorStart now => handleStart now s
  | editor, EditorViewHistory => setView history s
  | teleprompter, Teleprompter e' =>
      match mounted s with
      | Some st =>
          {| view := view s; promptsHistory := promptsHistory s;
             activePrompt := activePrompt s;
             mounted := Some (TeleprompterView.step e' st) |}
      | None => s
      end
  | teleprompter, TeleprompterFinish now =>
      match mounted s with
      | Some st => handleFinishPrompt (TeleprompterView.handleFinish now st) s
      | None => s
      end
  | teleprompter, TeleprompterBack confirmed => handleBackToEditor confirmed s
  | history, HistoryLoad now index =>
      match nth_error (promptsHistory s) index with
      | Some p => loadTimeout p (handleLoadPrompt now p s)
      | None => s
      end
  | history, HistoryDelete confirmed index =>
      match nth_error (promptsHistory s) index with
      | Some p => handleDeletePrompt confirmed (id p) s
      | None => s
      end
  | history, HistoryBack => setView editor s
  | _, _ => s
  end.

Definition run (es : list Event) (s : State) : State :=
  fold_left (fun s e => step e s) es s.

(** The clock readings of the session starts in [es] go up, from above
    [clock]. *)
Fixpoint startsGoUp (clock : Z) (es : list Event) : Prop :=
  match es with
  | [] => True
  | EditorStart now :: es' => (clock < now)%Z /\ startsGoUp now es'
  | _ :: es' => startsGoUp clock es'
  end.

(** The last session start of [es], or [clock]. *)
Fixpoint lastStart (clock : Z) (es : list Event) : Z :=
  match es with
  | [] => clock
  | EditorStart now :: es' => lastStart now es'
  | _ :: es' => lastStart clock es'
  end.

End AppState.

(* ===================================================================== *)
(** ** The vocabulary of the properties                                   *)
(* ===================================================================== *)

Module Spec.

(** The order of strings: at the first position where they differ the code
    unit is smaller, or the string ends first. *)
Inductive LexLt : jsstring -> jsstring -> Prop :=
| LexLt_end d t : LexLt [] (d :: t)
| LexLt_unit c d s t : (c < d)%N -> LexLt (c :: s) (d :: t)
| LexLt_next c s t : LexLt s t -> LexLt (c :: s) (c :: t).

(** [r] is [l] without the elements that fail [P], in the order of [l]. *)
Inductive Keeps {A : Type} (P : A -> Prop) : list A -> list A -> Prop :=
| Keeps_nil : Keeps P [] []
| Keeps_keep x l r : P x -> Keeps P l r -> Keeps P (x :: l) (x :: r)
| Keeps_drop x l r : ~ P x -> Keeps P l r -> Keeps P (x :: l) r.

(** [a] may come before [b] in the ascending order of the key. *)
Definition keyLe (sortKey : HistoryView.SortKey) (a b : Prompt) : Prop :=
  match sortKey with
  | HistoryView.byCreatedAt => (createdAt a <= createdAt b)%Z
  | HistoryView.byTitle => ~ LexLt (title b) (title a)
  end.

(** [a] may come before [b] in the chosen order. *)
Definition inOrder (sortKey : HistoryView.SortKey)
    (sortOrder : HistoryView.SortOrder) (a b : Prompt) : Prop :=
  match sortOrder with
  | HistoryView.asc => keyLe sortKey a b
  | HistoryView.desc => keyLe sortKey b a
  end.

(** [c] and [d] are the same character, or the same letter of the Latin
    alphabet in its two cases. *)
Definition sameLetter (c d : char) : Prop :=
  c = d \/
  ((65 <= c <= 90)%N /\ d = (c + 32)%N) \/
  ((65 <= d <= 90)%N /\ c = (d + 32)%N).

(** [needle] occurs in [hay], the case of the letters set aside. *)
Definition ContainsIgnoringCase (hay needle : jsstring) : Prop :=
  exists pre mid post, hay = pre ++ mid ++ post /\ Forall2 sameLetter mid needle.

Definition basicLatin (s : jsstring) : Prop := Forall (fun c => (c < 128)%N) s.

(** [a] and [b] have the same key: a tie. *)
Definition sameKey (sortKey : HistoryView.SortKey) (a b : Prompt) : bool :=
  match sortKey with
  | HistoryView.byCreatedAt => Z.eqb (createdAt a) (createdAt b)
  | HistoryView.byTitle => jsstring_eqb (title a) (title b)
  end.

End Spec.

(* ===================================================================== *)
(** ** More vocabulary                                                    *)
(* ===================================================================== *)

Module MarkupSpec.
Import Markup.

Definition isMarkup (sp : span) : bool :=
  match sp with
  | Plain _ => false
  | Emphasis _ | Bookmark _ _ => true
  end.

(** A span, then a markup span and a span, any number of times. *)
Inductive Alternates : list span -> Prop :=
| Alternates_last sp : Alternates [sp]
| Alternates_token sp tok rest :
    isMarkup tok = true -> Alternates rest -> Alternates (sp :: tok :: rest).

(** No token starts at a position of [pre], when [pre] is followed by
    [s]. *)
Definition tokenFree (pre s : jsstring) : Prop :=
  forall a b, pre = a ++ b -> b <> [] -> matchHere (b ++ s) = None.

Definition noLineTerminator (s : jsstring) : Prop :=
  Forall (fun c => isLineTerminator c = false) s.

Definition noWhiteSpace (s : jsstring) : Prop :=
  Forall (fun c => isWhiteSpace c = false) s.

End MarkupSpec.

Module TeleprompterSpec.
Import TeleprompterView.

(** The range inputs give values in their ranges. *)
Definition setsInRange (e : Event) : Prop :=
  (forall v, e = ChangeSpeed v -> (0 <= v <= 10)%Q) /\
  (forall v, e = ChangeFontSize v -> (1 <= v <= 20)%Q).

(** The content measured at a frame is no longer than [limit]. *)
Definition frameWithin (limit : Z) (e : Event) : Prop :=
  forall h, e = Frame h -> (h <= limit)%Z.

Definition notSpaceKey (e : Event) : Prop := forall now, e <> KeySpace now.

End TeleprompterSpec.

Module AppSpec.
Import AppState.

(** The records of a history were created at clock readings that go down
    along the list and are not after [clock], and each has the id of its
    reading. *)
Definition Chronological (clock : Z) (hist : list Prompt) : Prop :=
  StronglySorted (fun a b => (createdAt b < createdAt a)%Z) hist /\
  Forall (fun p => id p = toString (createdAt p) /\ (createdAt p <= clock)%Z) hist.

(** The history is chronological and the prompt of a mounted teleprompter
    view is newer than every record. *)
Definition WellFormed (clock : Z) (s : State) : Prop :=
  Chronological clock (promptsHistory s) /\
  forall st, mounted s = Some st ->
    id (TeleprompterView.prompt st) = toString (createdAt (TeleprompterView.prompt st)) /\
    (createdAt (TeleprompterView.prompt st) <= clock)%Z /\
    Forall (fun p => (createdAt p < createdAt (TeleprompterView.prompt st))%Z)
           (promptsHistory s).

(** The prompt of the editor after a sequence of edits. *)
Definition edited (edits : list EditorView.Edit) (p : Prompt) : Prompt :=
  fold_left (fun q e => EditorView.edit e q) edits p.

Definition changesHistory (e : Event) : bool :=
  match e with
  | TeleprompterFinish _ | HistoryDelete _ _ => true
  | _ => false
  end.

End AppSpec.

(* ===================================================================== *)
(** ** Sessions used as examples                                          *)
(* ===================================================================== *)

Module Scenario.
Import TeleprompterView.

(** A new prompt, started at the clock reading [1]. *)
Definition session : State :=
  mount (App.handleStart 1 (createNewPrompt 0 DEFAULT_SETTINGS)).

(** The new session after the play button: running, at the speed 2. *)
Definition playing : State := step (ClickPlayPause 1000) session.

(** The session at the speed 0, after the play button. *)
Definition idling : State := run [ChangeSpeed 0; ClickPlayPause 1000] session.

(** Two history records, created at 100 and at 200. *)
Definition record (createdAt : Z) (title text : string) : Prompt :=
  {| id := toString createdAt; title := str title; text := str text;
     settings := DEFAULT_SETTINGS; Types.startTime := None;
     endTime := Some (createdAt + 50)%Z; createdAt := createdAt |}.

(** A record with the title of the two Greek capitals alpha and sigma. *)
Definition greek : Prompt :=
  {| id := toString 300; title := [913; 931]%N; text := str "notes";
     settings := DEFAULT_SETTINGS; Types.startTime := None;
     endTime := Some 350%Z; createdAt := 300 |}.

Definition first : Prompt := record 100 "Opening" "Good evening, everyone".
Definition second : Prompt := record 200 "Closing" "Thank you and goodbye".

End Scenario.

(** Comparisons of closed rationals, by evaluation. *)
Ltac qclosed :=
  solve [reflexivity | vm_compute; intuition (try discriminate; try congruence)].

(* ===================================================================== *)
(** * Properties                                                          *)
(* ===================================================================== *)

(** ** Strings *)

Module JSFacts.
Import Spec.

Lemma startsWith_app s t : startsWith s t = true -> s = t ++ skipn (length t) s.
Proof.
  revert s. induction t as [|d t IH]; intros [|c s]; simpl; try easy.
  intros H. apply andb_prop in H. destruct H as [Hc Hs].
  apply N.eqb_eq in Hc. subst d. f_equal. apply IH, Hs.
Qed.

Lemma startsWith_prefix t s : startsWith (t ++ s) t = true.
Proof.
  induction t as [|d t IH]; simpl; [reflexivity|].
  rewrite N.eqb_refl. exact IH.
Qed.

Lemma endsWith_app s t : endsWith s t = true -> exists pre, s = pre ++ t.
Proof.
  unfold endsWith. intros H. apply startsWith_app in H.
  set (x := skipn (length (rev t)) (rev s)) in *. exists (rev x).
  rewrite <- (rev_involutive s), H, rev_app_distr, rev_involutive.
  reflexivity.
Qed.

Lemma endsWith_suffix s t : endsWith (s ++ t) t = true.
Proof. unfold endsWith. rewrite rev_app_distr. apply startsWith_prefix. Qed.

(** [slice] takes off a prefix and a non-empty suffix. *)
Lemma slice_strip (a mid b : jsstring) :
  0 < length b ->
  slice (a ++ mid ++ b) (Z.of_nat (length a)) (- Z.of_nat (length b)) = mid.
Proof.
  intros Hb. unfold slice. rewrite !length_app.
  destruct (Z.ltb_spec (Z.of_nat (length a)) 0); [lia|].
  destruct (Z.ltb_spec (- Z.of_nat (length b)) 0); [|lia].
  replace (Z.to_nat (Z.min _ _)) with (length a + 0) by lia.
  rewrite skipn_app, skipn_all2 by lia.
  replace (length a + 0 - length a) with 0 by lia. simpl.
  match goal with |- firstn ?n _ = _ => replace n with (length mid + 0) by lia end.
  rewrite firstn_app_2. simpl. apply app_nil_r.
Qed.

(** [includes] finds the substrings. *)
Lemma includes_spec s t :
  includes s t = true <-> exists pre post, s = pre ++ t ++ post.
Proof.
  split.
  - induction s as [|c s IH]; cbn [includes]; intros H.
    + rewrite orb_false_r in H. apply startsWith_app in H.
      exists [], (skipn (length t) []). exact H.
    + apply orb_prop in H. destruct H as [H|H].
      * apply startsWith_app in H. exists [], (skipn (length t) (c :: s)). exact H.
      * destruct (IH H) as [pre [post E]]. exists (c :: pre), post.
        rewrite E. reflexivity.
  - intros [pre [post E]]. subst s. induction pre as [|c pre IH].
    + destruct (t ++ post) eqn:E; cbn [app includes]; rewrite <- E;
        rewrite startsWith_prefix; reflexivity.
    + cbn [app includes]. rewrite IH. apply orb_true_r.
Qed.

Lemma ltb_LexLt s t : JS.ltb s t = true <-> LexLt s t.
Proof.
  split.
  - revert t. induction s as [|c s IH]; intros [|d t]; cbn [JS.ltb]; intros H;
      try discriminate H.
    + constructor.
    + apply orb_prop in H. destruct H as [H|H].
      * apply N.ltb_lt in H. apply LexLt_unit. exact H.
      * apply andb_prop in H. destruct H as [E H]. apply N.eqb_eq in E.
        subst d. apply LexLt_next. apply IH, H.
  - intros H. induction H as [d t|c d s t H|c s t H IH]; cbn [JS.ltb].
    + reflexivity.
    + apply N.ltb_lt in H. rewrite H. reflexivity.
    + rewrite N.eqb_refl, IH. apply orb_true_r.
Qed.

Lemma ltb_irrefl s : JS.ltb s s = false.
Proof.
  induction s as [|c s IH]; cbn [JS.ltb]; [reflexivity|].
  rewrite N.ltb_irrefl, IH. apply andb_false_r.
Qed.

Lemma ltb_trans s : forall t u,
  JS.ltb s t = true -> JS.ltb t u = true -> JS.ltb s u = true.
Proof.
  induction s as [|c s IH]; intros [|d t] [|e u]; cbn [JS.ltb]; intros H1 H2;
    try discriminate; try reflexivity.
  apply orb_prop in H1. apply orb_prop in H2. apply orb_true_iff.
  destruct H1 as [H1|H1], H2 as [H2|H2].
  - left. apply N.ltb_lt in H1, H2. apply N.ltb_lt. lia.
  - apply andb_prop in H2. destruct H2 as [E _]. apply N.eqb_eq in E. subst e.
    left. exact H1.
  - apply andb_prop in H1. destruct H1 as [E _]. apply N.eqb_eq in E. subst d.
    left. exact H2.
  - apply andb_prop in H1. apply andb_prop in H2.
    destruct H1 as [E1 H1], H2 as [E2 H2].
    apply N.eqb_eq in E1, E2. subst d e. right. rewrite N.eqb_refl.
    apply (IH _ _ H1 H2).
Qed.

Lemma ltb_total s : forall t,
  JS.ltb s t = false -> JS.ltb t s = false -> s = t.
Proof.
  induction s as [|c s IH]; intros [|d t]; cbn [JS.ltb]; intros H1 H2;
    try discriminate; try reflexivity.
  apply orb_false_elim in H1. apply orb_false_elim in H2.
  destruct H1 as [L1 A1], H2 as [L2 A2].
  apply N.ltb_ge in L1, L2. assert (c = d) by lia. subst d.
  rewrite N.eqb_refl in A1, A2. f_equal. apply IH; assumption.
Qed.

Lemma ltb_asym s t : JS.ltb s t = true -> JS.ltb t s = false.
Proof.
  intros H. destruct (JS.ltb t s) eqn:E; [|reflexivity].
  rewrite <- (ltb_irrefl s). symmetry. apply (ltb_trans _ _ _ H E).
Qed.

(** Not greater is transitive. *)
Lemma ltb_le_trans s t u :
  JS.ltb t s = false -> JS.ltb u t = false -> JS.ltb u s = false.
Proof.
  intros H1 H2. destruct (JS.ltb u s) eqn:E; [|reflexivity].
  destruct (JS.ltb s t) eqn:E1.
  - rewrite <- H2. symmetry. apply (ltb_trans _ _ _ E E1).
  - assert (s = t) by (apply ltb_total; assumption). subst t.
    rewrite <- H2. symmetry. exact E.
Qed.

Lemma jsstring_eqb_eq s t : jsstring_eqb s t = true <-> s = t.
Proof.
  unfold jsstring_eqb. destruct (list_eq_dec N.eq_dec s t); split; try easy.
Qed.

End JSFacts.

(** ** The markup parser *)

Module MarkupFacts.
Import Markup JSFacts.

(** The defining equation of [splitFrom], without the [inspect] wrapper. *)
Lemma splitFrom_cons piece c s :
  splitFrom piece (c :: s) =
  match matchHere (c :: s) with
  | Some (tok, rest) => piece :: tok :: splitFrom [] rest
  | None => splitFrom (piece ++ [c]) s
  end.
Proof.
  simp splitFrom.
  destruct (inspect (matchHere (c :: s))) as [[[tok rest]|] e]; simpl.
  all: rewrite e; reflexivity.
Qed.

Lemma slice_emphasis mid :
  slice ([STAR; STAR] ++ mid ++ [STAR; STAR]) 2 (-2) = mid.
Proof. apply (slice_strip [STAR; STAR] mid [STAR; STAR]). simpl. lia. Qed.

Lemma slice_bookmark mid :
  slice ([LBRACKET] ++ mid ++ [RBRACKET]) 1 (-1) = mid.
Proof. apply (slice_strip [LBRACKET] mid [RBRACKET]). simpl. lia. Qed.

Lemma lazyUntilStars_app s run rest :
  lazyUntilStars s = Some (run, rest) -> s = run ++ [STAR; STAR] ++ rest.
Proof.
  revert run rest. induction s as [|c s IH]; intros run rest; [discriminate|].
  cbn [lazyUntilStars].
  destruct (startsWith (c :: s) [STAR; STAR]) eqn:E.
  - intros [= <- <-]. apply startsWith_app in E. exact E.
  - destruct (isLineTerminator c); [discriminate|].
    destruct (lazyUntilStars s) as [[r t]|]; [|discriminate].
    intros [= <- <-]. simpl. f_equal. apply (IH _ _ eq_refl).
Qed.

Lemma lazyUntilBracket_app s run rest :
  lazyUntilBracket s = Some (run, rest) -> s = run ++ [RBRACKET] ++ rest.
Proof.
  revert run rest. induction s as [|c s IH]; intros run rest; [discriminate|].
  cbn [lazyUntilBracket].
  destruct (N.eqb_spec c RBRACKET) as [->|_].
  - intros [= <- <-]. reflexivity.
  - destruct (isLineTerminator c); [discriminate|].
    destruct (lazyUntilBracket s) as [[r t]|]; [|discriminate].
    intros [= <- <-]. simpl. f_equal. apply (IH _ _ eq_refl).
Qed.

(** A match is an emphasis token or a bookmark token, at the start of the
    text. *)
Lemma matchHere_shape s tok rest :
  matchHere s = Some (tok, rest) ->
  s = tok ++ rest /\
  exists run, tok = [STAR; STAR] ++ run ++ [STAR; STAR] \/
              tok = [LBRACKET] ++ run ++ [RBRACKET].
Proof.
  unfold matchHere.
  assert (B :
    match s with
    | c :: s' =>
        if N.eqb c LBRACKET then
          match lazyUntilBracket s' with
          | Some (run, rest) => Some (LBRACKET :: run ++ [RBRACKET], rest)
          | None => None
          end
        else None
    | [] => None
    end = Some (tok, rest) ->
    s = tok ++ rest /\
    exists run, tok = [STAR; STAR] ++ run ++ [STAR; STAR] \/
                tok = [LBRACKET] ++ run ++ [RBRACKET]).
  { destruct s as [|c s]; [discriminate|].
    destruct (N.eqb_spec c LBRACKET) as [->|_]; [|discriminate].
    destruct (lazyUntilBracket s) as [[r t]|] eqn:E; [|discriminate].
    intros [= <- <-]. apply lazyUntilBracket_app in E. subst s. split.
    - simpl. rewrite <- app_assoc. reflexivity.
    - exists r. right. reflexivity. }
  destruct (startsWith s [STAR; STAR]) eqn:S2; [|exact B].
  destruct (lazyUntilStars (skipn 2 s)) as [[r t]|] eqn:E; [|exact B].
  intros [= <- <-]. apply lazyUntilStars_app in E.
  apply startsWith_app in S2. simpl length in S2. split.
  - rewrite S2 at 1. rewrite E. simpl. rewrite <- app_assoc. reflexivity.
  - exists r. left. reflexivity.
Qed.

Lemma matchHere_app s tok rest : matchHere s = Some (tok, rest) -> s = tok ++ rest.
Proof. intros H. apply (matchHere_shape _ _ _ H). Qed.

(** [split] loses nothing: the pieces and the tokens, put end to end, are
    the text. *)
Lemma splitFrom_concat s : forall piece, concat (splitFrom piece s) = piece ++ s.
Proof.
  induction s as [s IH] using (induction_ltof1 _ (@length char)).
  unfold ltof in IH. intros piece. destruct s as [|c s].
  - simp splitFrom. simpl. rewrite app_nil_r. reflexivity.
  - rewrite splitFrom_cons.
    destruct (matchHere (c :: s)) as [[tok rest]|] eqn:E.
    + simpl. rewrite IH by (apply (matchHere_length _ _ _ E)).
      simpl. rewrite (matchHere_app _ _ _ E). reflexivity.
    + rewrite IH by (simpl; lia). rewrite <- app_assoc. reflexivity.
Qed.

Lemma split_concat text : concat (split text) = text.
Proof. apply (splitFrom_concat text []). Qed.

(** A part that [renderPart] takes for an emphasis span. *)
Lemma emphasis_part part :
  startsWith part [STAR; STAR] = true -> endsWith part [STAR; STAR] = true ->
  part = [STAR; STAR] \/ part = [STAR; STAR; STAR] \/
  exists mid, part = [STAR; STAR] ++ mid ++ [STAR; STAR].
Proof.
  intros Hs He. apply startsWith_app in Hs. apply endsWith_app in He.
  destruct He as [pre He]. simpl length in Hs.
  destruct pre as [|a [|b pre]].
  - left. exact He.
  - right; left. rewrite He in Hs. simpl in Hs.
    assert (a = STAR) by congruence. subst a. exact He.
  - right; right. exists pre. rewrite He in Hs. simpl in Hs.
    assert (a = STAR) by congruence. assert (b = STAR) by congruence.
    subst a b. exact He.
Qed.

(** A part that [renderPart] takes for a bookmark span. *)
Lemma bookmark_part part :
  startsWith part [LBRACKET] = true -> endsWith part [RBRACKET] = true ->
  exists mid, part = [LBRACKET] ++ mid ++ [RBRACKET].
Proof.
  intros Hs He. apply startsWith_app in Hs. apply endsWith_app in He.
  destruct He as [pre He]. simpl length in Hs.
  destruct pre as [|a pre].
  - rewrite He in Hs. discriminate Hs.
  - exists pre. rewrite He in Hs. simpl in Hs.
    assert (a = LBRACKET) by congruence. subst a. exact He.
Qed.

(** Putting the delimiters back around a rendered part gives the part,
    unless the part is two or three stars: there the leading and the
    trailing [**] that [renderPart] looks for overlap. *)
Lemma rawText_renderPart part :
  part <> [STAR; STAR] -> part <> [STAR; STAR; STAR] ->
  rawText (renderPart part) = part.
Proof.
  intros N2 N3. unfold renderPart.
  destruct (startsWith part [STAR; STAR]) eqn:S2; cbn [andb].
  - destruct (endsWith part [STAR; STAR]) eqn:E2.
    + destruct (emphasis_part _ S2 E2) as [H|[H|[mid H]]]; try contradiction.
      subst part. cbn [rawText]. f_equal.
      rewrite slice_emphasis. reflexivity.
    + destruct (startsWith part [LBRACKET]) eqn:S1; [|reflexivity].
      apply startsWith_app in S2. apply startsWith_app in S1.
      rewrite S1 in S2. discriminate S2.
  - destruct (startsWith part [LBRACKET]) eqn:S1; cbn [andb]; [|reflexivity].
    destruct (endsWith part [RBRACKET]) eqn:E1; [|reflexivity].
    destruct (bookmark_part _ S1 E1) as [mid H]. subst part.
    cbn [rawText]. f_equal.
    rewrite slice_bookmark. reflexivity.
Qed.

(** The round trip, for the texts none of whose parts is two or three
    stars. *)
Lemma rejoin_parseText text :
  Forall (fun part => part <> [STAR; STAR] /\ part <> [STAR; STAR; STAR])
         (split text) ->
  rejoin (parseText text) = text.
Proof.
  intros H. unfold rejoin, parseText. rewrite <- (split_concat text) at 2.
  f_equal. rewrite map_map.
  induction H as [|part parts [N2 N3] _ IH]; simpl; [reflexivity|].
  rewrite rawText_renderPart by assumption. f_equal. exact IH.
Qed.

(** How a matched token is rendered. *)
Lemma renderPart_token s tok rest :
  matchHere s = Some (tok, rest) ->
  exists run,
    (tok = [STAR; STAR] ++ run ++ [STAR; STAR] /\ renderPart tok = Emphasis run) \/
    (tok = [LBRACKET] ++ run ++ [RBRACKET] /\
     renderPart tok = Bookmark (str "bookmark-" ++ replaceWhiteSpace run) run).
Proof.
  intros H. destruct (matchHere_shape _ _ _ H) as [_ [run [T|T]]]; exists run.
  - left. split; [exact T|]. subst tok. unfold renderPart.
    rewrite startsWith_prefix.
    change ([STAR; STAR] ++ run ++ [STAR; STAR])
      with (([STAR; STAR] ++ run) ++ [STAR; STAR]) at 1.
    rewrite app_assoc, endsWith_suffix. cbn [andb].
    rewrite <- app_assoc, slice_emphasis. reflexivity.
  - right. split; [exact T|]. subst tok. unfold renderPart.
    replace (startsWith ([LBRACKET] ++ run ++ [RBRACKET]) [STAR; STAR])
      with false by reflexivity.
    cbn [andb].
    rewrite startsWith_prefix, app_assoc, endsWith_suffix. cbn [andb].
    rewrite <- app_assoc, slice_bookmark. reflexivity.
Qed.

Lemma parseText_token text tok rest :
  matchHere text = Some (tok, rest) ->
  parseText text = Plain [] :: renderPart tok :: parseText rest.
Proof.
  intros H. unfold parseText, split. destruct text as [|c s].
  - discriminate H.
  - rewrite splitFrom_cons, H. reflexivity.
Qed.

(** C1, at the text of two stars.  The text [**] is not matched by the
    pattern, so [split] returns it as its only part; [renderPart] finds that
    it starts with [**] and ends with [**] and renders an emphasis span with
    the empty content [slice(2, -2)].  Putting the delimiters back around
    that span gives four stars: re-joining the spans of [parseText] does not
    reproduce this input. *)
Theorem rejoin_parseText_two_stars :
  split (str "**") = [str "**"] /\
  parseText (str "**") = [Emphasis []] /\
  rejoin (parseText (str "**")) = str "****" /\
  rejoin (parseText (str "**")) <> str "**".
Proof. repeat split; try reflexivity. discriminate. Qed.

(** The same for three stars, and for a lone [**] after a token. *)
Lemma rejoin_parseText_more_stars :
  rejoin (parseText (str "***")) = str "****" /\
  rejoin (parseText (str "[a]**")) = str "[a]****".
Proof. split; reflexivity. Qed.

(** C9: the text [Hello **world** [intro] end] is parsed into the spans
    plain [Hello ], emphasis [world], plain [ ], bookmark [intro] (with the
    anchor [bookmark-intro]) and plain [ end], in this order, the [**] and
    the brackets being removed from the emphasis and the bookmark span. *)
Theorem parseText_hello_world :
  parseText (str "Hello **world** [intro] end") =
  [Plain (str "Hello "); Emphasis (str "world"); Plain (str " ");
   Bookmark (str "bookmark-intro") (str "intro"); Plain (str " end")].
Proof. reflexivity. Qed.

Lemma tokenFree_nil s : MarkupSpec.tokenFree [] s.
Proof.
  intros a b E Hb. symmetry in E. apply app_eq_nil in E.
  destruct E as [_ E]. contradiction.
Qed.

Lemma tokenFree_cons c pre s :
  matchHere ((c :: pre) ++ s) = None -> MarkupSpec.tokenFree pre s ->
  MarkupSpec.tokenFree (c :: pre) s.
Proof.
  intros Hc Hp a b E Hb. destruct a as [|d a].
  - cbn [app] in E. subst b. exact Hc.
  - cbn [app] in E. injection E as _ E. apply (Hp a b E Hb).
Qed.

Lemma tokenFree_tail c pre s :
  MarkupSpec.tokenFree (c :: pre) s ->
  matchHere ((c :: pre) ++ s) = None /\ MarkupSpec.tokenFree pre s.
Proof.
  intros H. split.
  - apply (H [] (c :: pre) eq_refl). discriminate.
  - intros a b E Hb. apply (H (c :: a) b); [rewrite E; reflexivity|exact Hb].
Qed.

(** The scan passes over a stretch in which no token starts. *)
Lemma splitFrom_tokenFree pre : forall piece s,
  MarkupSpec.tokenFree pre s ->
  splitFrom piece (pre ++ s) = splitFrom (piece ++ pre) s.
Proof.
  induction pre as [|c pre IH]; intros piece s H.
  - rewrite app_nil_r. reflexivity.
  - destruct (tokenFree_tail _ _ _ H) as [Hc Hp].
    cbn [app] in Hc |- *. rewrite splitFrom_cons, Hc, (IH _ _ Hp).
    rewrite <- app_assoc. reflexivity.
Qed.

Lemma parseText_tokenFree text :
  MarkupSpec.tokenFree text [] -> parseText text = [renderPart text].
Proof.
  intros H. unfold parseText, split.
  rewrite <- (app_nil_r text) at 1. rewrite (splitFrom_tokenFree _ _ _ H).
  simp splitFrom. reflexivity.
Qed.

Lemma parseText_first_token pre s tok rest :
  MarkupSpec.tokenFree pre s -> matchHere s = Some (tok, rest) ->
  parseText (pre ++ s) = renderPart pre :: renderPart tok :: parseText rest.
Proof.
  intros Hp Hs. unfold parseText, split.
  rewrite (splitFrom_tokenFree _ _ _ Hp). destruct s as [|c s].
  - discriminate Hs.
  - rewrite splitFrom_cons, Hs. reflexivity.
Qed.

(** Every text is free of tokens or has a first token. *)
Lemma first_token text :
  MarkupSpec.tokenFree text [] \/
  exists pre s tok rest,
    text = pre ++ s /\ MarkupSpec.tokenFree pre s /\
    matchHere s = Some (tok, rest).
Proof.
  induction text as [|c text IH].
  - left. apply tokenFree_nil.
  - destruct (matchHere (c :: text)) as [[tok rest]|] eqn:E.
    + right. exists [], (c :: text), tok, rest.
      split; [reflexivity|]. split; [apply tokenFree_nil|exact E].
    + destruct IH as [H|[pre [s [tok [rest [Et [Hp Hs]]]]]]].
      * left. apply tokenFree_cons; [|exact H].
        rewrite app_nil_r. exact E.
      * right. exists (c :: pre), s, tok, rest.
        split; [rewrite Et; reflexivity|]. split; [|exact Hs].
        apply tokenFree_cons; [|exact Hp].
        cbn [app]. rewrite <- Et. exact E.
Qed.

(** C10: [parseText] emits empty plain spans at the boundaries of markup
    tokens.  A text in which no token starts is one span, so the empty text
    gives one empty plain span.  A text with a first token gives the span of
    the stretch before the token (the empty plain span when the text begins
    with the token), the span of the token, and the spans of the rest; every
    text is of one of these two kinds, so no span is left out.  Hence a
    token that ends the text is followed by an empty plain span, and two
    adjacent tokens have an empty plain span between them, whatever comes
    before them; as in [**a**], [**a**[b]] and [x**a**]. *)
Theorem parseText_empty_plain_spans :
  parseText [] = [Plain []] /\
  (forall text tok rest,
     matchHere text = Some (tok, rest) ->
     parseText text = Plain [] :: renderPart tok :: parseText rest) /\
  (forall text tok, matchHere text = Some (tok, []) ->
     parseText text = [Plain []; renderPart tok; Plain []]) /\
  (forall text tok1 rest tok2 rest',
     matchHere text = Some (tok1, rest) -> matchHere rest = Some (tok2, rest') ->
     parseText text =
     Plain [] :: renderPart tok1 :: Plain [] :: renderPart tok2 :: parseText rest') /\
  parseText (str "**a**") = [Plain []; Emphasis (str "a"); Plain []] /\
  parseText (str "**a**[b]") =
    [Plain []; Emphasis (str "a"); Plain [];
     Bookmark (str "bookmark-b") (str "b"); Plain []] /\
  (forall text, MarkupSpec.tokenFree text [] -> parseText text = [renderPart text]) /\
  (forall pre s tok rest,
     MarkupSpec.tokenFree pre s -> matchHere s = Some (tok, rest) ->
     parseText (pre ++ s) = renderPart pre :: renderPart tok :: parseText rest) /\
  (forall text,
     MarkupSpec.tokenFree text [] \/
     exists pre s tok rest,
       text = pre ++ s /\ MarkupSpec.tokenFree pre s /\
       matchHere s = Some (tok, rest)) /\
  (forall pre s tok,
     MarkupSpec.tokenFree pre s -> matchHere s = Some (tok, []) ->
     parseText (pre ++ s) = [renderPart pre; renderPart tok; Plain []]) /\
  (forall pre s tok1 rest tok2 rest',
     MarkupSpec.tokenFree pre s ->
     matchHere s = Some (tok1, rest) -> matchHere rest = Some (tok2, rest') ->
     parseText (pre ++ s) =
     renderPart pre :: renderPart tok1 :: Plain [] :: renderPart tok2 ::
     parseText rest') /\
  parseText (str "x**a**") = [Plain (str "x"); Emphasis (str "a"); Plain []] /\
  parseText (str "x**a**[b]y") =
    [Plain (str "x"); Emphasis (str "a"); Plain [];
     Bookmark (str "bookmark-b") (str "b"); Plain (str "y")].
Proof.
  split; [reflexivity|]. split; [exact parseText_token|].
  split; [|split; [|split; [|split]]].
  - intros text tok H. rewrite (parseText_token _ _ _ H). reflexivity.
  - intros text tok1 rest tok2 rest' H1 H2.
    rewrite (parseText_token _ _ _ H1), (parseText_token _ _ _ H2). reflexivity.
  - reflexivity.
  - reflexivity.
  - split; [exact parseText_tokenFree|]. split; [exact parseText_first_token|].
    split; [exact first_token|]. split; [|split; [|split]].
    + intros pre s tok Hp Hs. rewrite (parseText_first_token _ _ _ _ Hp Hs).
      reflexivity.
    + intros pre s tok1 rest tok2 rest' Hp H1 H2.
      rewrite (parseText_first_token _ _ _ _ Hp H1), (parseText_token _ _ _ H2).
      reflexivity.
    + reflexivity.
    + reflexivity.
Qed.

(** C10 at the text [x[y][z]]: a stretch of plain text, a bookmark, a
    bookmark next to it, and the end of the text. *)
Lemma parseText_empty_plain_spans_witness :
  MarkupSpec.tokenFree (str "x") (str "[y][z]") /\
  matchHere (str "[y][z]") = Some (str "[y]", str "[z]") /\
  matchHere (str "[z]") = Some (str "[z]", []) /\
  parseText (str "x[y][z]") =
  [Plain (str "x"); Bookmark (str "bookmark-y") (str "y"); Plain [];
   Bookmark (str "bookmark-z") (str "z"); Plain []].
Proof.
  assert (Hp : MarkupSpec.tokenFree (str "x") (str "[y][z]")).
  { apply tokenFree_cons; [reflexivity|apply tokenFree_nil]. }
  split; [exact Hp|]. split; [reflexivity|]. split; [reflexivity|].
  destruct parseText_empty_plain_spans
    as [_ [_ [_ [_ [_ [_ [_ [_ [_ [_ [H _]]]]]]]]]]].
  change (str "x[y][z]") with (str "x" ++ str "[y][z]").
  rewrite (H (str "x") (str "[y][z]") (str "[y]") (str "[z]") (str "[z]") []
             Hp eq_refl eq_refl).
  reflexivity.
Defined.

End MarkupFacts.

(** ** The heap *)

Module HeapFacts.
Import Heap.

Lemma nth_error_update_same {A} (h : heap A) r a :
  r < length h -> nth_error (update h r a) r = Some a.
Proof.
  revert r. induction h as [|b h IH]; intros [|r]; simpl; try lia; auto.
  intros H. apply IH. lia.
Qed.

Lemma nth_error_update_other {A} (h : heap A) r r' a :
  r <> r' -> nth_error (update h r a) r' = nth_error h r'.
Proof.
  revert r r'. induction h as [|b h IH]; intros [|r] [|r']; simpl; try easy.
  intros H. apply IH. congruence.
Qed.

End HeapFacts.

(** ** The teleprompter view *)

Module TeleprompterFacts.
Import TeleprompterView Scenario.

Lemma rerender_cells st :
  prompt (rerender st) = prompt st /\ isPlaying (rerender st) = isPlaying st /\
  scrollPos (rerender st) = scrollPos st /\ startTime (rerender st) = startTime st.
Proof. unfold rerender. destruct (_ && _); repeat split; reflexivity. Qed.

Lemma prompt_rerender st : prompt (rerender st) = prompt st.
Proof. apply rerender_cells. Qed.
Lemma isPlaying_rerender st : isPlaying (rerender st) = isPlaying st.
Proof. apply rerender_cells. Qed.
Lemma scrollPos_rerender st : scrollPos (rerender st) = scrollPos st.
Proof. apply rerender_cells. Qed.
Lemma startTime_rerender st : startTime (rerender st) = startTime st.
Proof. apply rerender_cells. Qed.

Lemma speedOf_rerender st : speedOf (rerender st) = speedOf st.
Proof. unfold speedOf. rewrite prompt_rerender. reflexivity. Qed.
Lemma fontSizeOf_rerender st : fontSizeOf (rerender st) = fontSizeOf st.
Proof. unfold fontSizeOf. rewrite prompt_rerender. reflexivity. Qed.

(** After a render the listener is the one of the present [speed] and
    [fontSize]. *)
Lemma rerender_fresh st : listenerFresh (rerender st).
Proof.
  unfold listenerFresh, rerender.
  destruct (Qeq_bool (seenSpeed (keydown st)) (speedOf st)) eqn:E1;
    [destruct (Qeq_bool (seenFontSize (keydown st)) (fontSizeOf st)) eqn:E2|];
    cbn [andb].
  - split; apply Qeq_bool_eq; assumption.
  - split; reflexivity.
  - split; reflexivity.
Qed.

Lemma run_cons e es st : run (e :: es) st = run es (step e st).
Proof. reflexivity. Qed.

Lemma run_app es1 es2 st : run (es1 ++ es2) st = run es2 (run es1 st).
Proof. apply fold_left_app. Qed.

(** *** The settings *)

Lemma speedOf_updateSpeed v st : speedOf (updateSetting kSpeed v st) = v.
Proof. reflexivity. Qed.
Lemma fontSizeOf_updateSpeed v st :
  fontSizeOf (updateSetting kSpeed v st) = fontSizeOf st.
Proof. reflexivity. Qed.
Lemma fontSizeOf_updateFontSize v st : fontSizeOf (updateSetting kFontSize v st) = v.
Proof. reflexivity. Qed.
Lemma speedOf_updateFontSize v st :
  speedOf (updateSetting kFontSize v st) = speedOf st.
Proof. reflexivity. Qed.

Lemma Qmin_range lo hi x : (lo <= hi)%Q -> (lo <= x + 0.5)%Q -> (lo <= Qmin hi (x + 0.5) <= hi)%Q.
Proof.
  intros H1 H2. split.
  - apply Q.min_glb; assumption.
  - apply Q.le_min_l.
Qed.

Lemma Qmax_range lo hi x : (lo <= hi)%Q -> (x - 0.5 <= hi)%Q -> (lo <= Qmax lo (x - 0.5) <= hi)%Q.
Proof.
  intros H1 H2. split.
  - apply Q.le_max_l.
  - apply Q.max_lub; assumption.
Qed.

Lemma inRange_handle e st :
  inRange st -> listenerFresh st ->
  (forall v, e = ChangeSpeed v -> (0 <= v <= 10)%Q) ->
  (forall v, e = ChangeFontSize v -> (1 <= v <= 20)%Q) ->
  inRange (handle e st).
Proof.
  intros [[S0 S10] [F1 F20]] [LS LF] HS HF. unfold inRange.
  destruct e; cbn [handle];
    rewrite ?speedOf_updateSpeed, ?fontSizeOf_updateSpeed,
            ?fontSizeOf_updateFontSize, ?speedOf_updateFontSize;
    try (split; [split|split]; assumption).
  - split; [|split; assumption]. apply Qmin_range; lra.
  - split; [|split; assumption]. apply Qmax_range; lra.
  - split; [split; assumption|]. apply Qmin_range; lra.
  - split; [split; assumption|]. apply Qmax_range; lra.
  - split; [|split; assumption]. apply Qmax_range; lra.
  - split; [|split; assumption]. apply Qmin_range; lra.
  - split; [|split; assumption]. apply (HS value eq_refl).
  - split; [split; assumption|]. apply Qmax_range; lra.
  - split; [split; assumption|]. apply Qmin_range; lra.
  - split; [split; assumption|]. apply (HF value eq_refl).
  - destruct (isPlaying st); [|split; [split|split]; assumption].
    unfold scroll. destruct (Qlt_le_dec _ _); split; split; assumption.
Qed.

(** From a view in range, every sequence of events whose direct sets are in
    range leads to a view in range. *)
Lemma run_keeps_range es : forall st,
  inRange st -> listenerFresh st ->
  Forall (fun e =>
            (forall v, e = ChangeSpeed v -> (0 <= v <= 10)%Q) /\
            (forall v, e = ChangeFontSize v -> (1 <= v <= 20)%Q)) es ->
  inRange (run es st).
Proof.
  induction es as [|e es IH]; intros st HR HL Hes; [exact HR|].
  rewrite run_cons. inversion Hes as [|e' es' [HS HF] Hes' E]; subst.
  apply IH; [|apply rerender_fresh|exact Hes'].
  unfold step, inRange. rewrite speedOf_rerender, fontSizeOf_rerender.
  apply inRange_handle; assumption.
Qed.

(** *** The start of the session *)

(** Through the button, or through a listener that has seen the recorded
    start, a toggle leaves the recorded start as it is. *)
Lemma toggle_keeps_start e st t :
  startTime st = Some t -> t <> 0%Z ->
  (forall now, e = KeySpace now -> seenStartTime (keydown st) = Some t) ->
  startTime (step e st) = Some t.
Proof.
  intros Hs Ht Hk. unfold step. rewrite startTime_rerender.
  destruct e; cbn [handle]; try exact Hs.
  - unfold togglePlay. cbn [startTime]. rewrite Hs. cbn [notSet].
    destruct (Z.eqb_spec t 0); [contradiction|reflexivity].
  - unfold togglePlay. cbn [startTime]. rewrite (Hk now eq_refl). cbn [notSet].
    destruct (Z.eqb_spec t 0); [contradiction|exact Hs].
  - destruct (isPlaying st); [|exact Hs].
    unfold scroll. destruct (Qlt_le_dec _ _); exact Hs.
Qed.

(** Play, pause and play again through the button: the start of the first
    play is kept. *)
Lemma button_keeps_start st t1 t2 t3 :
  startTime st = None -> t1 <> 0%Z ->
  startTime (run [ClickPlayPause t1; ClickPlayPause t2; ClickPlayPause t3] st)
  = Some t1.
Proof.
  intros Hs Ht. rewrite !run_cons. cbn [run fold_left].
  assert (H1 : startTime (step (ClickPlayPause t1) st) = Some t1).
  { unfold step. rewrite startTime_rerender. cbn. rewrite Hs. reflexivity. }
  do 2 (apply toggle_keeps_start; [|exact Ht|intros now H; discriminate H]).
  exact H1.
Qed.

(** Play and pause through the space key, in any view just mounted: the
    pause records a start of its own. *)
Lemma space_key_pause_sets_start p t1 t2 :
  startTime (run [KeySpace t1; KeySpace t2] (mount p)) = Some t2.
Proof.
  rewrite !run_cons. cbn [run fold_left].
  assert (K : keydown (step (KeySpace t1) (mount p)) = keydown (mount p)).
  { unfold step, rerender. cbn. rewrite !Qeq_bool_refl. reflexivity. }
  unfold step at 1. rewrite startTime_rerender. cbn [handle].
  rewrite K. reflexivity.
Qed.

(** C3, at a session driven by the space key.  The listener of the space
    key was installed in the first render and is not replaced while [speed]
    and [fontSize] stay as they are, so the [togglePlay] it calls still sees
    [startTime] undefined: the pause at 2000 and the play at 3000 each
    record a new start, and the record that is saved starts at 3000, not at
    the first play at 1000. *)
Theorem space_key_overwrites_start :
  startTime (run [KeySpace 1000] session) = Some 1000%Z /\
  startTime (run [KeySpace 1000; KeySpace 2000] session) = Some 2000%Z /\
  isPlaying (run [KeySpace 1000; KeySpace 2000; KeySpace 3000] session) = true /\
  startTime (run [KeySpace 1000; KeySpace 2000; KeySpace 3000] session)
    = Some 3000%Z /\
  Types.startTime
    (handleFinish 4000 (run [KeySpace 1000; KeySpace 2000; KeySpace 3000] session))
    = Some 3000%Z.
Proof. repeat split. Qed.

(** *** Finishing *)

Lemma step_keeps_unset e st :
  isToggle e = false -> startTime st = None -> startTime (step e st) = None.
Proof.
  intros He Hs. unfold step. rewrite startTime_rerender.
  destruct e; cbn [handle]; try exact Hs; try discriminate He.
  destruct (isPlaying st); [|exact Hs].
  unfold scroll. destruct (Qlt_le_dec _ _); exact Hs.
Qed.

Lemma run_keeps_unset es : forall st,
  forallb (fun e => negb (isToggle e)) es = true ->
  startTime st = None -> startTime (run es st) = None.
Proof.
  induction es as [|e es IH]; intros st Hes Hs; [exact Hs|].
  cbn [forallb] in Hes. apply andb_prop in Hes. destruct Hes as [He Hes].
  rewrite run_cons. apply IH; [exact Hes|].
  apply step_keeps_unset; [|exact Hs].
  destruct (isToggle e); [discriminate He|reflexivity].
Qed.

(** C4: a session that is started (at [t0], from the prompt [p] of the
    editor) and finished (at [t1]) with no play action among the events in
    between emits a record whose [startTime] is undefined and whose
    [endTime] is the clock reading of the finish action. *)
Theorem finish_without_play p t0 es t1 :
  forallb (fun e => negb (isToggle e)) es = true ->
  let st := run es (mount (App.handleStart t0 p)) in
  Types.startTime (handleFinish t1 st) = None /\
  Types.endTime (handleFinish t1 st) = Some t1.
Proof.
  intros Hes st. split; [|reflexivity].
  cbn [handleFinish Types.startTime]. subst st.
  apply run_keeps_unset; [exact Hes|reflexivity].
Qed.

(** C4 at a session in which only settings are changed and frames pass. *)
Lemma finish_without_play_witness :
  let es := [KeyArrowUp; ClickFontPlus; Frame 500; ClickMode] in
  let st := run es (mount (App.handleStart 1 (createNewPrompt 0 DEFAULT_SETTINGS))) in
  forallb (fun e => negb (isToggle e)) es = true /\
  Types.startTime (handleFinish 9 st) = None /\
  Types.endTime (handleFinish 9 st) = Some 9%Z.
Proof.
  intros es st. split; [reflexivity|].
  apply (finish_without_play (createNewPrompt 0 DEFAULT_SETTINGS) 1 es 9).
  reflexivity.
Defined.

(** *** The frames *)

Lemma frame_cells h st :
  prompt (step (Frame h) st) = prompt st /\
  startTime (step (Frame h) st) = startTime st.
Proof.
  unfold step. rewrite prompt_rerender, startTime_rerender. cbn [handle].
  destruct (isPlaying st); [|split; reflexivity].
  unfold scroll. destruct (Qlt_le_dec _ _); split; reflexivity.
Qed.

Lemma speedOf_frame h st : speedOf (step (Frame h) st) = speedOf st.
Proof. unfold speedOf. rewrite (proj1 (frame_cells h st)). reflexivity. Qed.

(** A frame of a running view whose offset is short of the content. *)
Lemma frame_advance h st :
  isPlaying st = true -> (scrollPos st < inject_Z h)%Q ->
  scrollPos (step (Frame h) st) = (scrollPos st + speedOf st / 10)%Q /\
  isPlaying (step (Frame h) st) = true.
Proof.
  intros Hp Hlt. unfold step. rewrite scrollPos_rerender, isPlaying_rerender.
  cbn [handle]. rewrite Hp. unfold scroll.
  destruct (Qlt_le_dec _ _) as [_|Hge]; [split; [reflexivity|exact Hp]|].
  exfalso. apply (Qlt_irrefl (scrollPos st)).
  apply Qlt_le_trans with (inject_Z h); assumption.
Qed.

(** A frame of a running view whose offset has reached the content
    length. *)
Lemma frame_stop h st :
  isPlaying st = true -> (inject_Z h <= scrollPos st)%Q ->
  scrollPos (step (Frame h) st) = scrollPos st /\
  isPlaying (step (Frame h) st) = false.
Proof.
  intros Hp Hge. unfold step. rewrite scrollPos_rerender, isPlaying_rerender.
  cbn [handle]. rewrite Hp. unfold scroll.
  destruct (Qlt_le_dec _ _) as [Hlt|_]; [|split; reflexivity].
  exfalso. apply (Qlt_irrefl (scrollPos st)).
  apply Qlt_le_trans with (inject_Z h); assumption.
Qed.

(** A frame of a stopped view. *)
Lemma frame_stopped h st :
  isPlaying st = false ->
  scrollPos (step (Frame h) st) = scrollPos st /\
  isPlaying (step (Frame h) st) = false.
Proof.
  intros Hp. unfold step. rewrite scrollPos_rerender, isPlaying_rerender.
  cbn [handle]. rewrite Hp. split; [reflexivity|exact Hp].
Qed.

Lemma frames_stopped h n : forall st,
  isPlaying st = false ->
  scrollPos (run (repeat (Frame h) n) st) = scrollPos st /\
  isPlaying (run (repeat (Frame h) n) st) = false.
Proof.
  induction n as [|n IH]; intros st Hp; [split; [reflexivity|exact Hp]|].
  cbn [repeat]. rewrite run_cons.
  destruct (frame_stopped h st Hp) as [E1 E2].
  destruct (IH _ E2) as [F1 F2]. rewrite F1, E1. split; [reflexivity|exact F2].
Qed.

(** In exact arithmetic, at the speed 0, which is in [0, 10]: the view is
    running and short of the end of the content, and a frame leaves the
    offset where it is; after any number of frames the view is still
    running at the offset 0. *)
Lemma frame_at_speed_zero :
  isPlaying idling = true /\
  (0 <= speedOf idling <= 10)%Q /\
  (scrollPos idling < inject_Z 100)%Q /\
  ~ (scrollPos idling < scrollPos (step (Frame 100) idling))%Q /\
  forall n,
    isPlaying (run (repeat (Frame 100) n) idling) = true /\
    (scrollPos (run (repeat (Frame 100) n) idling) == 0)%Q.
Proof.
  split; [reflexivity|]. split; [qclosed|]. split; [reflexivity|].
  split; [qclosed|].
  assert (G : forall n st,
    isPlaying st = true -> (speedOf st == 0)%Q -> (scrollPos st == 0)%Q ->
    isPlaying (run (repeat (Frame 100) n) st) = true /\
    (scrollPos (run (repeat (Frame 100) n) st) == 0)%Q).
  { induction n as [|n IH]; intros st Hp Hv Hs; [split; assumption|].
    cbn [repeat]. rewrite run_cons.
    assert (Hlt : (scrollPos st < inject_Z 100)%Q)
      by (rewrite Hs; reflexivity).
    destruct (frame_advance 100 st Hp Hlt) as [E1 E2].
    apply IH; [exact E2|rewrite speedOf_frame; exact Hv|].
    rewrite E1, Hv, Hs. reflexivity. }
  intros n. apply G; reflexivity.
Qed.

End TeleprompterFacts.

(** ** The range inputs *)

Module RangeFacts.
Import TeleprompterView RangeInput Scenario TeleprompterFacts.

(** The value of a range input is between its minimum and its maximum. *)
Lemma rangeInput_bounds min max step requested :
  (min <= max)%Q -> (0 < step)%Q ->
  (min <= rangeInput min max step requested <= max)%Q.
Proof.
  intros Hmm Hs. unfold rangeInput.
  set (v := Qmax min (Qmin max requested)).
  set (k := Qfloor ((v - min) / step + (1 # 2))).
  assert (Hv : (min <= v <= max)%Q).
  { split; [apply Q.le_max_l|].
    apply Q.max_lub; [exact Hmm|apply Q.le_min_l]. }
  assert (Hx : (0 <= (v - min) / step)%Q).
  { apply Qle_shift_div_l; [exact Hs|]. rewrite Qmult_0_l. lra. }
  assert (Hk0 : (0 <= k)%Z).
  { change 0%Z with (Qfloor 0). apply Qfloor_resp_le. lra. }
  assert (Hk : (inject_Z k <= (v - min) / step + (1 # 2))%Q) by apply Qfloor_le.
  assert (Hks : (inject_Z k * step <= (v - min) + (1 # 2) * step)%Q).
  { apply Qle_trans with (((v - min) / step + (1 # 2)) * step)%Q.
    - apply Qmult_le_compat_r; [exact Hk|apply Qlt_le_weak, Hs].
    - rewrite Qmult_plus_distr_l. apply Qplus_le_l.
      rewrite Qmult_comm, Qmult_div_r; [apply Qle_refl|].
      intros E. rewrite E in Hs. apply (Qlt_irrefl _ Hs). }
  assert (Hk0' : (0 <= inject_Z k * step)%Q).
  { apply Qmult_le_0_compat; [|apply Qlt_le_weak, Hs].
    change 0%Q with (inject_Z 0). rewrite <- Zle_Qle. exact Hk0. }
  destruct (Qle_bool (min + inject_Z k * step) max) eqn:E.
  - apply Qle_bool_iff in E. split; [lra|exact E].
  - assert (Hgt : (max < min + inject_Z k * step)%Q).
    { apply Qnot_le_lt. intros H. apply Qle_bool_iff in H. congruence. }
    assert (Hk1 : (1 <= k)%Z).
    { destruct (Z.eq_dec k 0) as [E0|]; [|lia].
      rewrite E0 in Hgt. change (inject_Z 0) with 0%Q in Hgt.
      rewrite Qmult_0_l in Hgt. lra. }
    assert (Hk1' : (step <= inject_Z k * step)%Q).
    { rewrite <- (Qmult_1_l step) at 1.
      apply Qmult_le_compat_r; [|apply Qlt_le_weak, Hs].
      change 1%Q with (inject_Z 1). rewrite <- Zle_Qle. exact Hk1. }
    split; lra.
Qed.

(** A request at or beyond an end of the range gives the end, when the
    maximum is on a step (as it is for both inputs). *)
Lemma rangeInput_low min max step requested :
  (min <= max)%Q -> (0 < step)%Q -> (requested <= min)%Q ->
  (rangeInput min max step requested == min)%Q.
Proof.
  intros Hmm Hs Hr. unfold rangeInput.
  assert (Hv : (Qmax min (Qmin max requested) == min)%Q).
  { apply Q.max_l. apply Qle_trans with requested; [apply Q.le_min_r|exact Hr]. }
  assert (Hk : Qfloor ((Qmax min (Qmin max requested) - min) / step + (1 # 2)) = 0%Z).
  { rewrite Hv. setoid_replace ((min - min) / step + (1 # 2))%Q with (1 # 2)%Q.
    - reflexivity.
    - unfold Qminus. rewrite Qplus_opp_r. unfold Qdiv. rewrite Qmult_0_l.
      apply Qplus_0_l. }
  rewrite Hk. change (inject_Z 0) with 0%Q.
  assert (Hw : (min + 0 * step == min)%Q) by (rewrite Qmult_0_l; apply Qplus_0_r).
  destruct (Qle_bool (min + 0 * step) max) eqn:E; [exact Hw|].
  exfalso. assert (H : Qle_bool (min + 0 * step) max = true)
    by (apply Qle_bool_iff; rewrite Hw; exact Hmm).
  congruence.
Qed.

Lemma Qfloor_half (n : Z) : Qfloor (inject_Z n + (1 # 2)) = n.
Proof.
  set (k := Qfloor (inject_Z n + (1 # 2))).
  pose proof (Qfloor_le (inject_Z n + (1 # 2))) as H1.
  pose proof (Qlt_floor (inject_Z n + (1 # 2))) as H2. fold k in H1, H2.
  destruct (Z.lt_trichotomy k n) as [H|[H|H]]; [|exact H|]; exfalso.
  - assert (H3 : (inject_Z (k + 1) <= inject_Z n)%Q) by (rewrite <- Zle_Qle; lia).
    lra.
  - assert (H3 : (inject_Z (n + 1) <= inject_Z k)%Q) by (rewrite <- Zle_Qle; lia).
    rewrite inject_Z_plus in H3. change (inject_Z 1) with 1%Q in H3. lra.
Qed.

Lemma rangeInput_high min max step requested (steps : Z) :
  (0 < step)%Q -> (0 <= steps)%Z -> (max == min + inject_Z steps * step)%Q ->
  (max <= requested)%Q ->
  (rangeInput min max step requested == max)%Q.
Proof.
  intros Hs Hn Hmax Hr. unfold rangeInput.
  assert (Hmm : (min <= max)%Q).
  { rewrite Hmax. assert (0 <= inject_Z steps * step)%Q; [|lra].
    apply Qmult_le_0_compat; [|apply Qlt_le_weak, Hs].
    change 0%Q with (inject_Z 0). rewrite <- Zle_Qle. exact Hn. }
  assert (Hv : (Qmax min (Qmin max requested) == max)%Q).
  { rewrite (Q.min_l max requested Hr). apply Q.max_r. exact Hmm. }
  assert (Hk : Qfloor ((Qmax min (Qmin max requested) - min) / step + (1 # 2)) = steps).
  { rewrite Hv.
    setoid_replace ((max - min) / step + (1 # 2))%Q
      with (inject_Z steps + (1 # 2))%Q; [apply Qfloor_half|].
    apply Qplus_inj_r. rewrite Hmax.
    setoid_replace (min + inject_Z steps * step - min)%Q
      with (inject_Z steps * step)%Q by ring.
    apply Qdiv_mult_l. intros E. rewrite E in Hs. apply (Qlt_irrefl _ Hs). }
  rewrite Hk.
  destruct (Qle_bool (min + inject_Z steps * step) max) eqn:E;
    [symmetry; exact Hmax|].
  exfalso. assert (H : Qle_bool (min + inject_Z steps * step) max = true)
    by (apply Qle_bool_iff; rewrite <- Hmax; apply Qle_refl).
  congruence.
Qed.

Lemma deliver_setsInRange e : TeleprompterSpec.setsInRange (deliver e).
Proof.
  split; intros v E; destruct e; cbn [deliver] in E; try discriminate E;
    injection E as <-.
  - apply rangeInput_bounds; qclosed.
  - apply rangeInput_bounds; qclosed.
Qed.

Lemma mount_fresh p : listenerFresh (mount p).
Proof. split; reflexivity. Qed.

(** C2: every mutation of the speed setting yields a stored value in
    [0, 10] and every mutation of the font size yields a stored value in
    [1, 20].  In a view mounted with settings in range, after any sequence
    of events (the buttons, the arrow keys, and the range inputs asked for
    any value at all) both settings are in range.  A direct set of an
    out-of-range value is clamped, not rejected: a speed asked beyond 10 is
    stored as 10 and below 0 as 0, a font size asked beyond 20 is stored as
    20 and below 1 as 1 (the clamping is that of the range inputs;
    [updateSetting] stores the value it receives). *)
Theorem settings_stay_in_range p es :
  inRange (mount p) ->
  let st := run (List.map deliver es) (mount p) in
  inRange st /\
  (forall requested,
     let st' := step (deliver (ChangeSpeed requested)) st in
     inRange st' /\
     ((10 <= requested)%Q -> (speedOf st' == 10)%Q) /\
     ((requested <= 0)%Q -> (speedOf st' == 0)%Q)) /\
  (forall requested,
     let st' := step (deliver (ChangeFontSize requested)) st in
     inRange st' /\
     ((20 <= requested)%Q -> (fontSizeOf st' == 20)%Q) /\
     ((requested <= 1)%Q -> (fontSizeOf st' == 1)%Q)).
Proof.
  intros Hp st.
  assert (G : forall es', inRange (run (List.map deliver es') (mount p))).
  { intros es'. apply run_keeps_range; [exact Hp|apply mount_fresh|].
    apply Forall_forall. intros e He. apply in_map_iff in He.
    destruct He as [e' [<- _]]. apply deliver_setsInRange. }
  assert (S : forall e, step (deliver e) st = run (List.map deliver (es ++ [e])) (mount p)).
  { intros e. rewrite map_app, run_app. reflexivity. }
  split; [apply G|]. split; intros requested st'; subst st'.
  - split; [rewrite S; apply G|].
    unfold step. rewrite speedOf_rerender. cbn [deliver handle].
    rewrite speedOf_updateSpeed. split; intros H.
    + apply (rangeInput_high 0 10 0.1 requested 100); [qclosed|lia|qclosed|exact H].
    + apply rangeInput_low; [qclosed|qclosed|exact H].
  - split; [rewrite S; apply G|].
    unfold step. rewrite fontSizeOf_rerender. cbn [deliver handle].
    rewrite fontSizeOf_updateFontSize. split; intros H.
    + apply (rangeInput_high 1 20 0.5 requested 38); [qclosed|lia|qclosed|exact H].
    + apply rangeInput_low; [qclosed|qclosed|exact H].
Qed.

(** C2 at the new session: the speed input asked for 11, arrow up, the font
    size input asked for 0, the minus button; then the speed input asked
    for 2.5. *)
Lemma settings_stay_in_range_witness :
  let es := [ChangeSpeed 11; KeyArrowUp; ChangeFontSize 0; ClickFontMinus] in
  let st := run (List.map deliver es) session in
  inRange session /\ inRange st /\
  (speedOf st == 10)%Q /\ (fontSizeOf st == 1)%Q /\
  (speedOf (step (deliver (ChangeSpeed 2.5)) st) == 2.5)%Q.
Proof.
  intros es st.
  assert (HR : inRange session) by (unfold inRange; split; split; qclosed).
  pose proof (settings_stay_in_range
                (App.handleStart 1 (createNewPrompt 0 DEFAULT_SETTINGS)) es HR)
    as [H _].
  split; [exact HR|]. split; [exact H|].
  split; [vm_compute; reflexivity|]. split; vm_compute; reflexivity.
Defined.

End RangeFacts.

(** ** Filtering and sorting *)

Module SortFacts.
Import Spec HistoryView.

Section Filter.
Context {A : Type}.
Variable f : A -> bool.
Variable P : A -> Prop.
Hypothesis f_spec : forall x, f x = true <-> P x.

Lemma filter_Keeps l : Keeps P l (List.filter f l).
Proof.
  induction l as [|x l IH]; cbn [List.filter]; [constructor|].
  destruct (f x) eqn:E.
  - apply Keeps_keep; [apply f_spec, E|exact IH].
  - apply Keeps_drop; [|exact IH]. intros HP. apply f_spec in HP. congruence.
Qed.

Lemma filter_all l : (forall x, In x l -> P x) -> List.filter f l = l.
Proof.
  induction l as [|x l IH]; intros H; cbn [List.filter]; [reflexivity|].
  assert (E : f x = true) by (apply f_spec, H; left; reflexivity).
  rewrite E. f_equal. apply IH. intros y Hy. apply H. right. exact Hy.
Qed.

Lemma filter_none l : (forall x, In x l -> ~ P x) -> List.filter f l = [].
Proof.
  induction l as [|x l IH]; intros H; cbn [List.filter]; [reflexivity|].
  destruct (f x) eqn:E.
  - exfalso. apply (H x); [left; reflexivity|apply f_spec, E].
  - apply IH. intros y Hy. apply H. right. exact Hy.
Qed.

Lemma filter_one before x after :
  ~ P x -> (forall y, In y (before ++ after) -> P y) ->
  List.filter f (before ++ x :: after) = before ++ after.
Proof.
  intros Hx H. rewrite filter_app. cbn [List.filter].
  destruct (f x) eqn:E; [exfalso; apply Hx, f_spec, E|].
  rewrite <- filter_app. apply filter_all. exact H.
Qed.

End Filter.

Section Sorting.
Context {A : Type}.
Variable comparefn : A -> A -> Z.

(** [x] may come before [y]. *)
Let before (x y : A) : Prop := (comparefn x y <= 0)%Z.

Hypothesis before_total : forall x y, ~ before x y -> before y x.
Hypothesis before_trans : forall x y z, before x y -> before y z -> before x z.

Lemma insert_Permutation x l : Permutation (x :: l) (insert comparefn x l).
Proof.
  induction l as [|y l IH]; cbn [insert]; [apply Permutation_refl|].
  destruct (comparefn x y <=? 0)%Z; [apply Permutation_refl|].
  apply perm_trans with (y :: x :: l); [apply perm_swap|].
  apply perm_skip, IH.
Qed.

Lemma sorted_Permutation l : Permutation l (sorted comparefn l).
Proof.
  induction l as [|x l IH]; cbn [sorted]; [apply perm_nil|].
  apply perm_trans with (x :: sorted comparefn l);
    [apply perm_skip, IH|apply insert_Permutation].
Qed.

Lemma insert_StronglySorted x l :
  StronglySorted before l -> StronglySorted before (insert comparefn x l).
Proof.
  induction 1 as [|y l Hl IH Hy]; cbn [insert].
  - constructor; constructor.
  - destruct (Z.leb_spec (comparefn x y) 0) as [Hxy|Hxy].
    + constructor; [constructor; assumption|].
      constructor; [exact Hxy|].
      rewrite Forall_forall in Hy |- *. intros z Hz.
      apply before_trans with y; [exact Hxy|apply Hy, Hz].
    + constructor; [exact IH|].
      rewrite Forall_forall in Hy |- *. intros z Hz.
      apply (Permutation_in _ (Permutation_sym (insert_Permutation x l))) in Hz.
      destruct Hz as [<-|Hz]; [|apply Hy, Hz].
      apply before_total. unfold before. lia.
Qed.

Lemma sorted_StronglySorted l : StronglySorted before (sorted comparefn l).
Proof.
  induction l as [|x l IH]; cbn [sorted]; [constructor|].
  apply insert_StronglySorted, IH.
Qed.

(** Ties: [tie] relates the elements that the comparator does not order. *)
Variable tie : A -> A -> bool.
Hypothesis tie_before : forall x y, tie x y = true -> before x y.
Hypothesis tie_trans : forall a x y, tie a x = true -> tie a y = true -> tie x y = true.

Lemma insert_stable a x l :
  List.filter (tie a) (insert comparefn x l) = List.filter (tie a) (x :: l).
Proof.
  induction l as [|y l IH]; cbn [insert]; [reflexivity|].
  destruct (Z.leb_spec (comparefn x y) 0) as [Hxy|Hxy]; [reflexivity|].
  cbn [List.filter] in IH |- *. rewrite IH.
  destruct (tie a x) eqn:Ex, (tie a y) eqn:Ey; try reflexivity.
  exfalso. pose proof (tie_before _ _ (tie_trans _ _ _ Ex Ey)) as H.
  unfold before in H. lia.
Qed.

Lemma sorted_stable a l :
  List.filter (tie a) (sorted comparefn l) = List.filter (tie a) l.
Proof.
  induction l as [|x l IH]; cbn [sorted]; [reflexivity|].
  rewrite insert_stable. cbn [List.filter]. rewrite IH. reflexivity.
Qed.

End Sorting.

(** *** The comparator of the history view *)

Lemma compareFn_inOrder k o a b :
  (compareFn k o a b <= 0)%Z <-> inOrder k o a b.
Proof.
  unfold compareFn, inOrder, keyLe, gt, lt.
  destruct k, o.
  - destruct (Z.gtb_spec (createdAt a) (createdAt b));
      [|destruct (Z.ltb_spec (createdAt a) (createdAt b))]; lia.
  - destruct (Z.gtb_spec (createdAt a) (createdAt b));
      [|destruct (Z.ltb_spec (createdAt a) (createdAt b))]; lia.
  - rewrite <- JSFacts.ltb_LexLt.
    destruct (JS.ltb (title b) (title a)) eqn:E1.
    + split; [lia|intros H; contradiction].
    + destruct (JS.ltb (title a) (title b)); split; try lia; intros _ H;
        discriminate H.
  - rewrite <- JSFacts.ltb_LexLt.
    destruct (JS.ltb (title b) (title a)) eqn:E1.
    + rewrite (JSFacts.ltb_asym _ _ E1). split; [lia|]. intros _. lia.
    + destruct (JS.ltb (title a) (title b)); split; try lia; try easy.
Qed.

Lemma keyLe_total k a b : ~ keyLe k a b -> keyLe k b a.
Proof.
  destruct k; unfold keyLe.
  - lia.
  - rewrite <- !JSFacts.ltb_LexLt. intros H.
    destruct (JS.ltb (title b) (title a)) eqn:E; [|exfalso; apply H; easy].
    rewrite (JSFacts.ltb_asym _ _ E). discriminate.
Qed.

Lemma keyLe_trans k a b c : keyLe k a b -> keyLe k b c -> keyLe k a c.
Proof.
  destruct k; unfold keyLe.
  - lia.
  - rewrite <- !JSFacts.ltb_LexLt. intros H1 H2.
    apply not_true_is_false in H1, H2. apply not_true_iff_false.
    apply (JSFacts.ltb_le_trans _ _ _ H1 H2).
Qed.

Lemma inOrder_total k o a b : ~ inOrder k o a b -> inOrder k o b a.
Proof. destruct o; apply keyLe_total. Qed.

Lemma inOrder_trans k o a b c : inOrder k o a b -> inOrder k o b c -> inOrder k o a c.
Proof.
  destruct o; unfold inOrder; intros H1 H2.
  - apply (keyLe_trans _ _ _ _ H1 H2).
  - apply (keyLe_trans _ _ _ _ H2 H1).
Qed.

Lemma sameKey_inOrder k o a b : sameKey k a b = true -> inOrder k o a b.
Proof.
  destruct k, o; unfold sameKey, inOrder, keyLe; intros H.
  - apply Z.eqb_eq in H. lia.
  - apply Z.eqb_eq in H. lia.
  - apply JSFacts.jsstring_eqb_eq in H. rewrite H, <- JSFacts.ltb_LexLt.
    rewrite JSFacts.ltb_irrefl. discriminate.
  - apply JSFacts.jsstring_eqb_eq in H. rewrite H, <- JSFacts.ltb_LexLt.
    rewrite JSFacts.ltb_irrefl. discriminate.
Qed.

Lemma sameKey_trans k a x y :
  sameKey k a x = true -> sameKey k a y = true -> sameKey k x y = true.
Proof.
  destruct k; unfold sameKey.
  - rewrite !Z.eqb_eq. lia.
  - rewrite !JSFacts.jsstring_eqb_eq. congruence.
Qed.

(** The result of [sort] with the comparator of the view: a permutation, in
    the chosen order, with the ties in the order of the input. *)
Lemma sorted_compareFn k o l :
  Permutation l (sorted (compareFn k o) l) /\
  StronglySorted (inOrder k o) (sorted (compareFn k o) l) /\
  forall a, List.filter (sameKey k a) (sorted (compareFn k o) l)
            = List.filter (sameKey k a) l.
Proof.
  split; [apply sorted_Permutation|]. split.
  - assert (S : StronglySorted (fun x y => (compareFn k o x y <= 0)%Z)
                  (sorted (compareFn k o) l)).
    { apply sorted_StronglySorted.
      - intros x y H. apply compareFn_inOrder, inOrder_total.
        intros H'. apply H, compareFn_inOrder, H'.
      - intros x y z H1 H2. apply compareFn_inOrder.
        apply compareFn_inOrder in H1, H2. apply (inOrder_trans _ _ _ _ _ H1 H2). }
    induction S as [|x r Sr IH Hx]; constructor; [exact IH|].
    rewrite Forall_forall in Hx |- *. intros y Hy.
    apply compareFn_inOrder, Hx, Hy.
  - intros a. apply sorted_stable.
    + intros x y H. apply compareFn_inOrder, sameKey_inOrder, H.
    + intros b x y. apply sameKey_trans.
Qed.

End SortFacts.

(** ** The history *)

Module HistoryFacts.
Import Spec HistoryView Heap Scenario SortFacts.

Lemma update_last {A} (h : heap A) a b : update (h ++ [a]) (length h) b = h ++ [b].
Proof.
  induction h as [|c h IH]; cbn [app length update]; [reflexivity|].
  rewrite IH. reflexivity.
Qed.

(** What [filteredAndSortedPrompts] does to the heap: it allocates one
    array, the view, and returns its reference. *)
Lemma filteredAndSortedPrompts_run toLowerCase term k o prompts h persisted :
  nth_error h prompts = Some persisted ->
  filteredAndSortedPrompts toLowerCase term k o prompts h
  = Some (length h, h ++ [view toLowerCase term k o persisted]).
Proof.
  intros Hp.
  unfold filteredAndSortedPrompts, Array_filter, Array_sort, bind, read,
    alloc, write, ret.
  rewrite Hp. rewrite nth_error_app2 by apply Nat.le_refl.
  rewrite Nat.sub_diag. cbn [nth_error]. rewrite update_last.
  rewrite nth_error_app2 by apply Nat.le_refl.
  rewrite Nat.sub_diag. reflexivity.
Qed.

(** C6: when the user confirms, deleting by an id keeps the records that do
    not bear the id, in their order and unchanged; so when one record bears
    the id, exactly that record is removed, and when no record bears it the
    list is returned as it is.  When the user declines, nothing is
    deleted. *)
Theorem delete_by_id id prev :
  Keeps (fun p => Types.id p <> id) prev (App.handleDeletePrompt true id prev) /\
  (forall before p after,
     prev = before ++ p :: after -> Types.id p = id ->
     (forall q, In q (before ++ after) -> Types.id q <> id) ->
     App.handleDeletePrompt true id prev = before ++ after) /\
  ((forall q, In q prev -> Types.id q <> id) ->
     App.handleDeletePrompt true id prev = prev) /\
  App.handleDeletePrompt false id prev = prev.
Proof.
  assert (S : forall p, negb (jsstring_eqb (Types.id p) id) = true <-> Types.id p <> id).
  { intros p. rewrite negb_true_iff, <- not_true_iff_false,
      JSFacts.jsstring_eqb_eq. reflexivity. }
  unfold App.handleDeletePrompt. split; [|split; [|split]].
  - apply filter_Keeps. exact S.
  - intros before p after -> Hp Hq.
    apply (filter_one _ _ S); [|exact Hq]. intros H. apply H, Hp.
  - intros H. apply (filter_all _ _ S). exact H.
  - reflexivity.
Qed.

(** C6 at the history of the two records: deleting the first leaves the
    second, and deleting an id that no record bears leaves both. *)
Lemma delete_by_id_witness :
  App.handleDeletePrompt true (str "100") [first; second] = [second] /\
  App.handleDeletePrompt true (str "300") [first; second] = [first; second].
Proof.
  destruct (delete_by_id (str "100") [first; second]) as [_ [H1 _]].
  destruct (delete_by_id (str "300") [first; second]) as [_ [_ [H2 _]]].
  split.
  - apply (H1 [] first [second]); [reflexivity|reflexivity|].
    intros q [<-|[]]. discriminate.
  - apply H2. intros q [<-|[<-|[]]]; discriminate.
Defined.

(** C8: the history query returns a new array and leaves the arrays that
    were in the heap, the persisted list among them, as they were.  The new
    array holds the filtered records sorted by the chosen key in the chosen
    direction: the creation times compared as numbers, the titles compared
    code unit by code unit, and the records with the same key in the order
    they have in the persisted list.  The two records created at 100 and at
    200 come out as [100, 200] ascending and [200, 100] descending by
    date. *)
Theorem view_sorted_fresh toLowerCase term k o prompts (h : heap Prompt) persisted :
  nth_error h prompts = Some persisted ->
  (exists result h',
     filteredAndSortedPrompts toLowerCase term k o prompts h = Some (result, h') /\
     result <> prompts /\ nth_error h result = None /\
     (forall r, r < length h -> nth_error h' r = nth_error h r) /\
     nth_error h' prompts = Some persisted /\
     nth_error h' result = Some (view toLowerCase term k o persisted)) /\
  Permutation (filtered toLowerCase term persisted)
              (view toLowerCase term k o persisted) /\
  StronglySorted (inOrder k o) (view toLowerCase term k o persisted) /\
  (forall a, List.filter (sameKey k a) (view toLowerCase term k o persisted)
             = List.filter (sameKey k a) (filtered toLowerCase term persisted)) /\
  List.map createdAt (sorted (compareFn byCreatedAt asc) [second; first])
    = [100; 200]%Z /\
  List.map createdAt (sorted (compareFn byCreatedAt asc) [first; second])
    = [100; 200]%Z /\
  List.map createdAt (sorted (compareFn byCreatedAt desc) [first; second])
    = [200; 100]%Z /\
  List.map createdAt (sorted (compareFn byCreatedAt desc) [second; first])
    = [200; 100]%Z.
Proof.
  intros Hp.
  assert (Hlt : prompts < length h).
  { apply nth_error_Some. rewrite Hp. discriminate. }
  split.
  - exists (length h), (h ++ [view toLowerCase term k o persisted]).
    split; [apply filteredAndSortedPrompts_run, Hp|].
    split; [lia|]. split; [apply nth_error_None, Nat.le_refl|].
    split; [intros r Hr; apply nth_error_app1, Hr|].
    split; [rewrite nth_error_app1 by exact Hlt; exact Hp|].
    rewrite nth_error_app2 by apply Nat.le_refl.
    rewrite Nat.sub_diag. reflexivity.
  - destruct (sorted_compareFn k o (filtered toLowerCase term persisted))
      as [H1 [H2 H3]].
    split; [exact H1|]. split; [exact H2|]. split; [exact H3|].
    repeat split.
Qed.

(** C8 at a heap that holds the persisted list of the two records, oldest
    first: the default view (no search string, by date, descending) is a new
    array with the newest record first. *)
Lemma view_sorted_fresh_witness :
  nth_error [[first; second]] 0 = Some [first; second] /\
  filteredAndSortedPrompts asciiLower [] byCreatedAt desc 0 [[first; second]]
  = Some (1, [[first; second]; [second; first]]) /\
  StronglySorted (inOrder byCreatedAt desc)
    (view asciiLower [] byCreatedAt desc [first; second]).
Proof.
  split; [reflexivity|]. split; [reflexivity|].
  apply (view_sorted_fresh asciiLower [] byCreatedAt desc 0
           [[first; second]] [first; second] eq_refl).
Defined.

End HistoryFacts.

(** ** More on the markup parser *)

Module MarkupMore.
Import Markup MarkupSpec JSFacts MarkupFacts.

(** The characters of a part are characters of the text. *)
Lemma split_part_incl text part c :
  In part (split text) -> In c part -> In c text.
Proof.
  intros Hp Hc. rewrite <- (split_concat text).
  apply in_concat. exists part. split; assumption.
Qed.

(** X1: for every text none of whose parts is two or three stars alone,
    putting the delimiters back around the spans of [parseText] and joining
    them gives the text; this is so for every text without a star. *)
Theorem rejoin_parseText_round_trip text :
  (Forall (fun part => part <> [STAR; STAR] /\ part <> [STAR; STAR; STAR])
          (split text) ->
   rejoin (parseText text) = text) /\
  (~ In STAR text -> rejoin (parseText text) = text).
Proof.
  split; [apply rejoin_parseText|].
  intros Hno. apply rejoin_parseText. apply Forall_forall. intros part Hp.
  split; intros E; apply Hno; apply (split_part_incl text part STAR Hp);
    rewrite E; left; reflexivity.
Qed.

(** X1 at a text with an emphasis span and at a text without stars. *)
Lemma rejoin_parseText_round_trip_witness :
  rejoin (parseText (str "a **b** [c]")) = str "a **b** [c]" /\
  rejoin (parseText (str "see [intro]")) = str "see [intro]".
Proof.
  split.
  - apply (proj1 (rejoin_parseText_round_trip (str "a **b** [c]"))).
    vm_compute.
    repeat (constructor; [split; intros H; discriminate H|]). constructor.
  - apply (proj2 (rejoin_parseText_round_trip (str "see [intro]"))).
    intros H. repeat (destruct H as [H|H]; [discriminate H|]). exact H.
Defined.

Lemma matchHere_plain c s :
  c <> STAR -> c <> LBRACKET -> matchHere (c :: s) = None.
Proof.
  intros Hs Hb. unfold matchHere. cbn [startsWith].
  destruct (N.eqb_spec c STAR) as [E|_]; [contradiction|].
  destruct (N.eqb_spec c LBRACKET) as [E|_]; [contradiction|].
  reflexivity.
Qed.

Lemma splitFrom_plain s : forall piece,
  ~ In STAR s -> ~ In LBRACKET s -> splitFrom piece s = [piece ++ s].
Proof.
  induction s as [|c s IH]; intros piece Hs Hb.
  - simp splitFrom. rewrite app_nil_r. reflexivity.
  - rewrite splitFrom_cons, matchHere_plain.
    + rewrite IH.
      * rewrite <- app_assoc. reflexivity.
      * intros H. apply Hs. right. exact H.
      * intros H. apply Hb. right. exact H.
    + intros E. apply Hs. left. exact E.
    + intros E. apply Hb. left. exact E.
Qed.

(** X2: a text with no star and no opening bracket is one plain span, the
    text itself. *)
Theorem parseText_plain text :
  ~ In STAR text -> ~ In LBRACKET text -> parseText text = [Plain text].
Proof.
  intros Hs Hb. unfold parseText, split. rewrite (splitFrom_plain text [] Hs Hb).
  cbn [app List.map]. unfold renderPart.
  destruct text as [|c s]; [reflexivity|].
  cbn [startsWith].
  destruct (N.eqb_spec c STAR) as [E|_];
    [exfalso; apply Hs; left; exact E|].
  destruct (N.eqb_spec c LBRACKET) as [E|_];
    [exfalso; apply Hb; left; exact E|].
  reflexivity.
Qed.

(** X2 at a sentence with a closing bracket and a line break. *)
Lemma parseText_plain_witness :
  parseText (str "Good evening] " ++ [10%N] ++ str "everyone")
  = [Plain (str "Good evening] " ++ [10%N] ++ str "everyone")].
Proof.
  apply parseText_plain; intros H;
    repeat (destruct H as [H|H]; [discriminate H|]); exact H.
Defined.

Lemma renderPart_token_isMarkup s tok rest :
  matchHere s = Some (tok, rest) -> isMarkup (renderPart tok) = true.
Proof.
  intros H. destruct (renderPart_token _ _ _ H) as [run [[_ E]|[_ E]]];
    rewrite E; reflexivity.
Qed.

Lemma splitFrom_Alternates s : forall piece,
  Alternates (List.map renderPart (splitFrom piece s)).
Proof.
  induction s as [s IH] using (induction_ltof1 _ (@length char)).
  unfold ltof in IH. intros piece. destruct s as [|c s].
  - simp splitFrom. apply Alternates_last.
  - rewrite splitFrom_cons.
    destruct (matchHere (c :: s)) as [[tok rest]|] eqn:E.
    + cbn [List.map]. apply Alternates_token.
      * apply (renderPart_token_isMarkup _ _ _ E).
      * apply IH. apply (matchHere_length _ _ _ E).
    + apply IH. simpl. lia.
Qed.

Lemma Alternates_odd spans : Alternates spans -> Nat.odd (length spans) = true.
Proof.
  induction 1 as [sp|sp tok rest _ _ IH]; [reflexivity|].
  cbn [length]. rewrite Nat.odd_succ, Nat.even_succ. exact IH.
Qed.

(** X3: the spans of every text alternate: a span for the text before the
    first token, then, for every token, its emphasis or bookmark span and a
    span for the text after it.  So the number of spans is odd, and every
    second span is a markup span. *)
Theorem parseText_alternates text :
  Alternates (parseText text) /\ Nat.odd (length (parseText text)) = true.
Proof.
  assert (A : Alternates (parseText text)) by apply splitFrom_Alternates.
  split; [exact A|apply Alternates_odd, A].
Qed.

Lemma lazyUntilStars_run s : forall run rest,
  lazyUntilStars s = Some (run, rest) ->
  noLineTerminator run /\ includes (run ++ [STAR]) [STAR; STAR] = false.
Proof.
  induction s as [|c s IH]; intros run rest; [discriminate|].
  cbn [lazyUntilStars].
  destruct (startsWith (c :: s) [STAR; STAR]) eqn:E.
  - intros [= <- <-]. split; [constructor|reflexivity].
  - destruct (isLineTerminator c) eqn:L; [discriminate|].
    destruct (lazyUntilStars s) as [[r t]|] eqn:Es; [|discriminate].
    intros [= <- <-]. destruct (IH _ _ eq_refl) as [HL HI].
    split; [constructor; assumption|].
    cbn [app includes]. rewrite HI, orb_false_r.
    apply lazyUntilStars_app in Es. subst s.
    destruct r as [|d r]; cbn [app startsWith] in E |- *.
    + rewrite !N.eqb_refl in E. cbn [andb] in E.
      rewrite andb_true_r in E |- *. exact E.
    + destruct (N.eqb c STAR); [|reflexivity]. cbn [andb] in E |- *.
      rewrite andb_true_r in E |- *. exact E.
Qed.

Lemma lazyUntilBracket_run s : forall run rest,
  lazyUntilBracket s = Some (run, rest) ->
  noLineTerminator run /\ ~ In RBRACKET run.
Proof.
  induction s as [|c s IH]; intros run rest; [discriminate|].
  cbn [lazyUntilBracket].
  destruct (N.eqb_spec c RBRACKET) as [->|Hc].
  - intros [= <- <-]. split; [constructor|intros []].
  - destruct (isLineTerminator c) eqn:L; [discriminate|].
    destruct (lazyUntilBracket s) as [[r t]|] eqn:Es; [|discriminate].
    intros [= <- <-]. destruct (IH _ _ eq_refl) as [HL HI].
    split; [constructor; assumption|].
    intros [E|H]; [apply Hc, E|apply HI, H].
Qed.

Lemma noLineTerminator_app s t :
  noLineTerminator s -> noLineTerminator t -> noLineTerminator (s ++ t).
Proof. intros Hs Ht. apply Forall_app. split; assumption. Qed.

(** X4: a token that the pattern matches is at the start of the text and
    lies on one line.  It is either [**], a run and the first [**] that
    follows (the run holds no two adjacent stars and does not end in a
    star), or an opening bracket, a run and the first closing bracket that
    follows. *)
Theorem matchHere_token s tok rest :
  matchHere s = Some (tok, rest) ->
  s = tok ++ rest /\ noLineTerminator tok /\
  ((exists run, tok = [STAR; STAR] ++ run ++ [STAR; STAR] /\
                includes (run ++ [STAR]) [STAR; STAR] = false) \/
   (exists run, tok = [LBRACKET] ++ run ++ [RBRACKET] /\ ~ In RBRACKET run)).
Proof.
  intros H. split; [apply (matchHere_app _ _ _ H)|]. revert H. unfold matchHere.
  assert (B :
    match s with
    | c :: s' =>
        if N.eqb c LBRACKET then
          match lazyUntilBracket s' with
          | Some (run, rest) => Some (LBRACKET :: run ++ [RBRACKET], rest)
          | None => None
          end
        else None
    | [] => None
    end = Some (tok, rest) ->
    noLineTerminator tok /\
    ((exists run, tok = [STAR; STAR] ++ run ++ [STAR; STAR] /\
                  includes (run ++ [STAR]) [STAR; STAR] = false) \/
     (exists run, tok = [LBRACKET] ++ run ++ [RBRACKET] /\ ~ In RBRACKET run))).
  { destruct s as [|c s]; [discriminate|].
    destruct (N.eqb c LBRACKET); [|discriminate].
    destruct (lazyUntilBracket s) as [[r t]|] eqn:E; [|discriminate].
    intros [= <- <-]. destruct (lazyUntilBracket_run _ _ _ E) as [HL HI]. split.
    - constructor; [reflexivity|].
      apply noLineTerminator_app; [exact HL|]. constructor; [reflexivity|constructor].
    - right. exists r. split; [reflexivity|exact HI]. }
  destruct (startsWith s [STAR; STAR]); [|exact B].
  destruct (lazyUntilStars (skipn 2 s)) as [[r t]|] eqn:E; [|exact B].
  intros [= <- <-]. destruct (lazyUntilStars_run _ _ _ E) as [HL HI]. split.
  - apply (noLineTerminator_app [STAR; STAR]);
      [repeat constructor|].
    apply noLineTerminator_app; [exact HL|repeat constructor].
  - left. exists r. split; [reflexivity|exact HI].
Qed.

(** X4 at a text whose first closing bracket ends the bookmark. *)
Lemma matchHere_token_witness :
  matchHere (str "[a]b]") = Some (str "[a]", str "b]") /\
  noLineTerminator (str "[a]") /\ ~ In RBRACKET (str "a").
Proof.
  assert (H : matchHere (str "[a]b]") = Some (str "[a]", str "b]")) by reflexivity.
  destruct (matchHere_token _ _ _ H) as [_ [HL _]].
  split; [exact H|]. split; [exact HL|].
  intros [E|[]]. discriminate E.
Defined.

Lemma replaceWhiteSpace_noWhiteSpace s : noWhiteSpace (replaceWhiteSpace s).
Proof.
  induction s as [|c s IH]; [constructor|].
  cbn [replaceWhiteSpace]. destruct (isWhiteSpace c) eqn:Hc.
  - destruct s as [|d s]; [repeat constructor|].
    destruct (isWhiteSpace d); [exact IH|].
    constructor; [reflexivity|exact IH].
  - constructor; [exact Hc|exact IH].
Qed.

Lemma replaceWhiteSpace_id s : noWhiteSpace s -> replaceWhiteSpace s = s.
Proof.
  induction 1 as [|c s Hc _ IH]; [reflexivity|].
  cbn [replaceWhiteSpace]. rewrite Hc, IH. reflexivity.
Qed.

Lemma renderPart_Bookmark part anchor name :
  renderPart part = Bookmark anchor name ->
  anchor = str "bookmark-" ++ replaceWhiteSpace name.
Proof.
  unfold renderPart.
  destruct (startsWith part [STAR; STAR] && endsWith part [STAR; STAR]);
    [discriminate|].
  destruct (startsWith part [LBRACKET] && endsWith part [RBRACKET]);
    [|discriminate].
  intros [= <- <-]. reflexivity.
Qed.

(** X5: the anchor of every bookmark span is [bookmark-] followed by the
    name with every run of white space replaced by one hyphen, so it holds
    no white space; a name without white space is taken as it is. *)
Theorem bookmark_anchor text anchor name :
  In (Bookmark anchor name) (parseText text) ->
  anchor = str "bookmark-" ++ replaceWhiteSpace name /\
  noWhiteSpace anchor /\
  (noWhiteSpace name -> anchor = str "bookmark-" ++ name).
Proof.
  intros H. unfold parseText in H. apply in_map_iff in H.
  destruct H as [part [E _]]. apply renderPart_Bookmark in E. subst anchor.
  split; [reflexivity|]. split.
  - apply Forall_app. split; [repeat constructor|].
    apply replaceWhiteSpace_noWhiteSpace.
  - intros Hn. rewrite (replaceWhiteSpace_id _ Hn). reflexivity.
Qed.

(** X5 at a bookmark whose name has two blanks and a tab in it. *)
Lemma bookmark_anchor_witness :
  In (Bookmark (str "bookmark-part-two-b") (str "part  two" ++ [9%N] ++ str "b"))
     (parseText (str "x[part  two" ++ [9%N] ++ str "b]y")) /\
  noWhiteSpace (str "bookmark-part-two-b").
Proof.
  assert (H : In (Bookmark (str "bookmark-part-two-b")
                           (str "part  two" ++ [9%N] ++ str "b"))
                 (parseText (str "x[part  two" ++ [9%N] ++ str "b]y")))
    by (right; left; reflexivity).
  split; [exact H|]. apply (bookmark_anchor _ _ _ H).
Defined.

End MarkupMore.

(** ** More on the teleprompter view *)

Module TeleprompterMore.
Import TeleprompterView TeleprompterSpec Scenario TeleprompterFacts.

Ltac each_event tac :=
  repeat (apply Forall_cons; [tac|]); apply Forall_nil.

Ltac sets_in_range :=
  each_event ltac:(split; intros ? E; try discriminate E;
                   injection E as <-; qclosed).

Ltac frames_within :=
  each_event ltac:(intros ? E; try discriminate E; injection E as <-; lia).

Lemma step_range e st :
  inRange st -> listenerFresh st -> setsInRange e ->
  inRange (step e st) /\ listenerFresh (step e st).
Proof.
  intros HR HL [HS HF]. split; [|apply rerender_fresh].
  unfold step, inRange. rewrite speedOf_rerender, fontSizeOf_rerender.
  apply inRange_handle; assumption.
Qed.

Lemma scrollPos_step e st :
  scrollPos (step e st) = scrollPos st \/
  (exists h, e = Frame h /\ isPlaying st = true /\
             (scrollPos st < inject_Z h)%Q /\
             scrollPos (step e st) = (scrollPos st + speedOf st / 10)%Q).
Proof.
  unfold step. rewrite scrollPos_rerender.
  destruct e; cbn [handle]; try (left; reflexivity).
  destruct (isPlaying st) eqn:Hp; [|left; reflexivity].
  unfold scroll. destruct (Qlt_le_dec _ _) as [Hlt|Hge]; [|left; reflexivity].
  right. exists offsetHeight. repeat split. exact Hlt.
Qed.

Lemma tenth_bounds v : (0 <= v <= 10)%Q -> (0 <= v / 10 <= 1)%Q.
Proof.
  intros [H0 H10]. split.
  - apply Qle_shift_div_l; [reflexivity|]. rewrite Qmult_0_l. exact H0.
  - apply Qle_shift_div_r; [reflexivity|]. rewrite Qmult_1_l. exact H10.
Qed.

(** X6: the scroll offset never goes back.  In a view whose settings are in
    range, whatever the user does and however many frames pass, the offset
    is at least what it was, as long as the range inputs give values in
    their ranges. *)
Theorem scrollPos_never_decreases es : forall st,
  inRange st -> listenerFresh st -> Forall setsInRange es ->
  (scrollPos st <= scrollPos (run es st))%Q.
Proof.
  induction es as [|e es IH]; intros st HR HL Hes; [apply Qle_refl|].
  rewrite run_cons. inversion Hes as [|e' es' He Hes' E]; subst.
  destruct (step_range e st HR HL He) as [HR' HL'].
  apply Qle_trans with (scrollPos (step e st)); [|apply IH; assumption].
  destruct (scrollPos_step e st) as [E|[h [_ [_ [_ E]]]]]; rewrite E.
  - apply Qle_refl.
  - destruct HR as [HS _]. destruct (tenth_bounds _ HS) as [H0 _]. lra.
Qed.

(** X6 at the running session: a change of speed, frames, a pause. *)
Lemma scrollPos_never_decreases_witness :
  let es := [Frame 300; ChangeSpeed 7.5; Frame 300; KeyArrowDown; Frame 300;
             ClickPlayPause 2000; Frame 300] in
  inRange playing /\ listenerFresh playing /\ Forall setsInRange es /\
  (scrollPos playing <= scrollPos (run es playing))%Q /\
  (scrollPos (run es playing) == 1.65)%Q.
Proof.
  intros es.
  assert (HR : inRange playing) by (unfold inRange; split; split; qclosed).
  assert (HL : listenerFresh playing) by (split; reflexivity).
  assert (He : Forall setsInRange es).
  { sets_in_range. }
  split; [exact HR|]. split; [exact HL|]. split; [exact He|].
  split; [apply (scrollPos_never_decreases es playing HR HL He)|reflexivity].
Defined.

(** X7: the scroll offset overshoots the content by less than one step.  If
    the content measures at most [limit] at every frame and the offset is at
    most [limit + 1], it stays at most [limit + 1]. *)
Theorem scrollPos_bounded limit es : forall st,
  inRange st -> listenerFresh st -> Forall setsInRange es ->
  Forall (frameWithin limit) es ->
  (scrollPos st <= inject_Z limit + 1)%Q ->
  (scrollPos (run es st) <= inject_Z limit + 1)%Q.
Proof.
  induction es as [|e es IH]; intros st HR HL Hes Hfs Hb; [exact Hb|].
  rewrite run_cons.
  inversion Hes as [|e' es' He Hes' E]; subst.
  inversion Hfs as [|e' es' Hf Hfs' E]; subst.
  destruct (step_range e st HR HL He) as [HR' HL'].
  apply IH; try assumption.
  destruct (scrollPos_step e st) as [E|[h [Ee [_ [Hlt E]]]]]; rewrite E.
  - exact Hb.
  - destruct HR as [HS _]. destruct (tenth_bounds _ HS) as [_ H1].
    assert (Hh : (inject_Z h <= inject_Z limit)%Q)
      by (rewrite <- Zle_Qle; apply (Hf h Ee)).
    lra.
Qed.

(** X7 at the running session at full speed and a content of the length
    2. *)
Lemma scrollPos_bounded_witness :
  let es := [ChangeSpeed 10; Frame 2; Frame 2; Frame 2; Frame 2; Frame 2] in
  Forall setsInRange es /\ Forall (frameWithin 2) es /\
  (scrollPos (run es playing) <= inject_Z 2 + 1)%Q /\
  (scrollPos (run es playing) == 2)%Q /\
  isPlaying (run es playing) = false.
Proof.
  intros es.
  assert (HR : inRange playing) by (unfold inRange; split; split; qclosed).
  assert (HL : listenerFresh playing) by (split; reflexivity).
  assert (He : Forall setsInRange es).
  { sets_in_range. }
  assert (Hf : Forall (frameWithin 2) es).
  { frames_within. }
  split; [exact He|]. split; [exact Hf|]. split.
  - apply (scrollPos_bounded 2 es playing HR HL He Hf). qclosed.
  - split; reflexivity.
Defined.

Lemma step_stays_stopped e st :
  isToggle e = false -> isPlaying st = false ->
  isPlaying (step e st) = false /\ scrollPos (step e st) = scrollPos st.
Proof.
  intros He Hp. unfold step. rewrite isPlaying_rerender, scrollPos_rerender.
  destruct e; cbn [handle]; try discriminate He;
    try (split; [exact Hp|reflexivity]).
  rewrite Hp. split; [exact Hp|reflexivity].
Qed.

(** X8: a stopped view does not move.  Without a press of play (the button
    or the space key), no change of settings and no frame starts the view or
    changes the scroll offset. *)
Theorem stopped_stays_stopped es : forall st,
  forallb (fun e => negb (isToggle e)) es = true ->
  isPlaying st = false ->
  isPlaying (run es st) = false /\ scrollPos (run es st) = scrollPos st.
Proof.
  induction es as [|e es IH]; intros st Hes Hp; [split; [exact Hp|reflexivity]|].
  cbn [forallb] in Hes. apply andb_prop in Hes. destruct Hes as [He Hes].
  apply negb_true_iff in He.
  destruct (step_stays_stopped e st He Hp) as [Hp' Hs'].
  rewrite run_cons. destruct (IH _ Hes Hp') as [H1 H2].
  split; [exact H1|]. rewrite H2. exact Hs'.
Qed.

(** X8 at the session paused after two frames. *)
Lemma stopped_stays_stopped_witness :
  let st := run [Frame 300; Frame 300; ClickPlayPause 2000] playing in
  let es := [Frame 300; KeyArrowUp; Frame 300; ChangeSpeed 9; Frame 300] in
  isPlaying st = false /\
  isPlaying (run es st) = false /\
  scrollPos (run es st) = scrollPos st.
Proof.
  intros st es. split; [reflexivity|].
  apply (stopped_stays_stopped es st); reflexivity.
Defined.

Lemma step_script e st :
  id (prompt (step e st)) = id (prompt st) /\
  title (prompt (step e st)) = title (prompt st) /\
  text (prompt (step e st)) = text (prompt st) /\
  createdAt (prompt (step e st)) = createdAt (prompt st).
Proof.
  unfold step. rewrite prompt_rerender.
  destruct e; cbn [handle]; try (repeat split; reflexivity).
  destruct (isPlaying st); [|repeat split; reflexivity].
  unfold scroll. destruct (Qlt_le_dec _ _); repeat split; reflexivity.
Qed.

Lemma run_script es : forall st,
  id (prompt (run es st)) = id (prompt st) /\
  title (prompt (run es st)) = title (prompt st) /\
  text (prompt (run es st)) = text (prompt st) /\
  createdAt (prompt (run es st)) = createdAt (prompt st).
Proof.
  induction es as [|e es IH]; intros st; [repeat split; reflexivity|].
  rewrite run_cons.
  destruct (IH (step e st)) as [A [B [C D]]].
  destruct (step_script e st) as [A' [B' [C' D']]].
  rewrite A, B, C, D. repeat split; assumption.
Qed.

(** X9: the teleprompter view never changes the script.  Whatever happens
    between the mounting and the finish, the record that is emitted has the
    id, the title, the text and the creation time of the prompt the view
    was mounted with, and the clock reading of the finish as its end. *)
Theorem finish_keeps_script p es now :
  let record := handleFinish now (run es (mount p)) in
  id record = id p /\ title record = title p /\ text record = text p /\
  createdAt record = createdAt p /\ endTime record = Some now.
Proof.
  cbn zeta. cbn [handleFinish id title text createdAt endTime].
  destruct (run_script es (mount p)) as [A [B [C D]]].
  repeat split; assumption.
Qed.

Lemma run_keeps_start es : forall st t,
  Forall notSpaceKey es -> startTime st = Some t -> t <> 0%Z ->
  startTime (run es st) = Some t.
Proof.
  induction es as [|e es IH]; intros st t Hes Hs Ht; [exact Hs|].
  inversion Hes as [|e' es' He Hes' E]; subst.
  rewrite run_cons. apply IH; [exact Hes'| |exact Ht].
  apply toggle_keeps_start; [exact Hs|exact Ht|].
  intros now E. exfalso. apply (He now E).
Qed.

Lemma startTime_button_session p before t after :
  forallb (fun e => negb (isToggle e)) before = true ->
  t <> 0%Z -> Forall notSpaceKey after ->
  startTime (run (before ++ ClickPlayPause t :: after) (mount p)) = Some t.
Proof.
  intros Hb Ht Ha.
  rewrite run_app, run_cons. apply run_keeps_start; [exact Ha| |exact Ht].
  unfold step. rewrite startTime_rerender. cbn [handle].
  unfold togglePlay. cbn [startTime].
  rewrite (run_keeps_unset before (mount p) Hb eq_refl). reflexivity.
Qed.

(** X10: in a session where play and pause are pressed on the button, the
    start of the session is the clock reading of the first press.  The
    events before it hold no toggle, the events after it hold no space key,
    and the clock reading is not 0. *)
Theorem button_session_start p before t after now :
  forallb (fun e => negb (isToggle e)) before = true ->
  t <> 0%Z -> Forall notSpaceKey after ->
  let st := run (before ++ ClickPlayPause t :: after) (mount p) in
  startTime st = Some t /\ Types.startTime (handleFinish now st) = Some t.
Proof.
  intros Hb Ht Ha st.
  assert (E : startTime st = Some t)
    by (apply startTime_button_session; assumption).
  split; [exact E|exact E].
Qed.

(** X10 at a session with two pauses. *)
Lemma button_session_start_witness :
  let before := [KeyArrowUp; Frame 300] in
  let after := [Frame 300; ClickPlayPause 2000; ClickFontPlus;
                ClickPlayPause 3000; Frame 300; ClickPlayPause 4000] in
  let st := run (before ++ ClickPlayPause 1000 :: after) session in
  forallb (fun e => negb (isToggle e)) before = true /\
  Forall notSpaceKey after /\
  startTime st = Some 1000%Z /\
  Types.startTime (handleFinish 5000 st) = Some 1000%Z.
Proof.
  intros before after st.
  assert (Ha : Forall notSpaceKey after)
    by (each_event ltac:(intros ? E; discriminate E)).
  split; [reflexivity|]. split; [exact Ha|].
  apply (button_session_start
           (App.handleStart 1 (createNewPrompt 0 DEFAULT_SETTINGS))
           before 1000 after 5000 eq_refl); [discriminate|exact Ha].
Defined.

(** X11: the arrow keys do what the buttons do.  In a view as it is after
    any render, arrow up gives the speed of the plus button, arrow down the
    speed of the minus button, arrow right the font size of the plus button
    and arrow left the font size of the minus button. *)
Theorem arrow_keys_as_buttons st :
  listenerFresh st ->
  (speedOf (step KeyArrowUp st) == speedOf (step ClickSpeedPlus st))%Q /\
  (speedOf (step KeyArrowDown st) == speedOf (step ClickSpeedMinus st))%Q /\
  (fontSizeOf (step KeyArrowRight st) == fontSizeOf (step ClickFontPlus st))%Q /\
  (fontSizeOf (step KeyArrowLeft st) == fontSizeOf (step ClickFontMinus st))%Q.
Proof.
  intros [HS HF]. unfold step.
  rewrite !speedOf_rerender, !fontSizeOf_rerender. cbn [handle].
  rewrite !speedOf_updateSpeed, !fontSizeOf_updateFontSize.
  rewrite HS, HF. repeat split; reflexivity.
Qed.

(** X11 at the running session, whose listener is the one of its last
    render. *)
Lemma arrow_keys_as_buttons_witness :
  listenerFresh playing /\
  (speedOf (step KeyArrowUp playing) == speedOf (step ClickSpeedPlus playing))%Q /\
  (speedOf (step KeyArrowUp playing) == 2.5)%Q.
Proof.
  assert (HL : listenerFresh playing) by (split; reflexivity).
  split; [exact HL|]. split; [|reflexivity].
  apply (arrow_keys_as_buttons playing HL).
Defined.

(** X12: the plus and minus buttons move by half a unit and stop at the ends
    of the range.  The speed goes up by 0.5 below 9.5 and to 10 from 9.5 on,
    down by 0.5 above 0.5 and to 0 from 0.5 on; the font size goes up by 0.5
    below 19.5 and to 20 from 19.5 on, down by 0.5 above 1.5 and to 1 from
    1.5 on. *)
Theorem buttons_step_and_saturate st :
  ((speedOf st <= 9.5)%Q -> (speedOf (step ClickSpeedPlus st) == speedOf st + 0.5)%Q) /\
  ((9.5 <= speedOf st)%Q -> (speedOf (step ClickSpeedPlus st) == 10)%Q) /\
  ((0.5 <= speedOf st)%Q -> (speedOf (step ClickSpeedMinus st) == speedOf st - 0.5)%Q) /\
  ((speedOf st <= 0.5)%Q -> (speedOf (step ClickSpeedMinus st) == 0)%Q) /\
  ((fontSizeOf st <= 19.5)%Q -> (fontSizeOf (step ClickFontPlus st) == fontSizeOf st + 0.5)%Q) /\
  ((19.5 <= fontSizeOf st)%Q -> (fontSizeOf (step ClickFontPlus st) == 20)%Q) /\
  ((1.5 <= fontSizeOf st)%Q -> (fontSizeOf (step ClickFontMinus st) == fontSizeOf st - 0.5)%Q) /\
  ((fontSizeOf st <= 1.5)%Q -> (fontSizeOf (step ClickFontMinus st) == 1)%Q).
Proof.
  unfold step. rewrite !speedOf_rerender, !fontSizeOf_rerender. cbn [handle].
  rewrite !speedOf_updateSpeed, !fontSizeOf_updateFontSize.
  repeat split; intros H.
  - apply Q.min_r. lra.
  - apply Q.min_l. lra.
  - apply Q.max_r. lra.
  - apply Q.max_l. lra.
  - apply Q.min_r. lra.
  - apply Q.min_l. lra.
  - apply Q.max_r. lra.
  - apply Q.max_l. lra.
Qed.

(** X12 at the session set to the speed 9.8 and the font size 1: plus gives
    the speed 10, minus leaves the font size at 1. *)
Lemma buttons_step_and_saturate_witness :
  let st := run [ChangeSpeed 9.8; ChangeFontSize 1] session in
  (9.5 <= speedOf st)%Q /\ (fontSizeOf st <= 1.5)%Q /\
  (speedOf (step ClickSpeedPlus st) == 10)%Q /\
  (fontSizeOf (step ClickFontMinus st) == 1)%Q.
Proof.
  intros st.
  assert (H1 : (9.5 <= speedOf st)%Q) by qclosed.
  assert (H2 : (fontSizeOf st <= 1.5)%Q) by qclosed.
  destruct (buttons_step_and_saturate st) as [_ [A [_ [_ [_ [_ [_ B]]]]]]].
  split; [exact H1|]. split; [exact H2|]. split; [exact (A H1)|exact (B H2)].
Defined.

End TeleprompterMore.

(** ** More on the history view *)

Module HistoryMore.
Import Spec HistoryView Scenario SortFacts.

Section Ordered.
Context {A : Type}.
Variable comparefn : A -> A -> Z.

Lemma sorted_ordered l :
  StronglySorted (fun x y => (comparefn x y <= 0)%Z) l -> sorted comparefn l = l.
Proof.
  induction 1 as [|x l Hl IH Hx]; [reflexivity|].
  cbn [sorted]. rewrite IH. destruct l as [|y l]; [reflexivity|].
  cbn [insert]. inversion Hx as [|y' l' Hxy _]; subst.
  destruct (Z.leb_spec (comparefn x y) 0); [reflexivity|lia].
Qed.

End Ordered.

Section Relations.
Context {A : Type}.

Lemma StronglySorted_app (R : A -> A -> Prop) l1 l2 :
  StronglySorted R l1 -> StronglySorted R l2 ->
  (forall x y, In x l1 -> In y l2 -> R x y) ->
  StronglySorted R (l1 ++ l2).
Proof.
  induction 1 as [|x l1 H1 IH Hx]; intros H2 H12; [exact H2|].
  cbn [app]. constructor.
  - apply IH; [exact H2|]. intros a b Ha Hb. apply H12; [right; exact Ha|exact Hb].
  - apply Forall_app. split; [exact Hx|].
    apply Forall_forall. intros b Hb. apply H12; [left; reflexivity|exact Hb].
Qed.

Lemma StronglySorted_rev (R : A -> A -> Prop) l :
  StronglySorted R l -> StronglySorted (fun x y => R y x) (rev l).
Proof.
  induction 1 as [|x l H IH Hx]; [constructor|].
  cbn [rev]. apply StronglySorted_app; [exact IH|repeat constructor|].
  intros a b Ha [<-|[]]. rewrite Forall_forall in Hx.
  apply Hx. apply in_rev. exact Ha.
Qed.

(** Two arrangements of the same elements in the order [R] are equal when
    [R] orders no two different elements both ways. *)
Lemma StronglySorted_unique (R : A -> A -> Prop) l1 : forall l2,
  (forall a b, In a l1 -> In b l1 -> R a b -> R b a -> a = b) ->
  Permutation l1 l2 -> StronglySorted R l1 -> StronglySorted R l2 -> l1 = l2.
Proof.
  induction l1 as [|x l1 IH]; intros l2 Hanti HP H1 H2.
  - apply Permutation_nil in HP. symmetry. exact HP.
  - destruct l2 as [|y l2];
      [apply Permutation_sym, Permutation_nil in HP; discriminate HP|].
    inversion H1 as [|x' l1' S1 F1]; subst.
    inversion H2 as [|y' l2' S2 F2]; subst.
    rewrite Forall_forall in F1, F2.
    assert (Hy : In y (x :: l1))
      by (apply (Permutation_in _ (Permutation_sym HP)); left; reflexivity).
    assert (Hx : In x (y :: l2))
      by (apply (Permutation_in _ HP); left; reflexivity).
    assert (E : x = y).
    { destruct Hy as [E|Hy]; [exact E|].
      destruct Hx as [E|Hx]; [symmetry; exact E|].
      apply Hanti; [left; reflexivity|right; exact Hy|apply F1, Hy|apply F2, Hx]. }
    subst y. f_equal. apply IH; [|apply (Permutation_cons_inv HP)|exact S1|exact S2].
    intros a b Ha Hb. apply Hanti; right; assumption.
Qed.

End Relations.

Lemma compareFn_sorted_ordered k o l :
  StronglySorted (inOrder k o) l -> sorted (compareFn k o) l = l.
Proof.
  intros H. apply sorted_ordered.
  induction H as [|x l Hl IH Hx]; constructor; [exact IH|].
  rewrite Forall_forall in Hx |- *. intros y Hy.
  apply compareFn_inOrder, Hx, Hy.
Qed.

(** X14: a list that is in the chosen order already is left as it is by the
    sort of the view; so sorting the view again changes nothing. *)
Theorem sort_fixes_ordered k o l :
  (StronglySorted (inOrder k o) l -> sorted (compareFn k o) l = l) /\
  sorted (compareFn k o) (sorted (compareFn k o) l) = sorted (compareFn k o) l.
Proof.
  split; [apply compareFn_sorted_ordered|].
  apply compareFn_sorted_ordered. apply (sorted_compareFn k o l).
Qed.

(** X14 at the two records, newest first. *)
Lemma sort_fixes_ordered_witness :
  StronglySorted (inOrder byCreatedAt desc) [second; first] /\
  sorted (compareFn byCreatedAt desc) [second; first] = [second; first].
Proof.
  assert (H : StronglySorted (inOrder byCreatedAt desc) [second; first]).
  { repeat constructor. cbn. lia. }
  split; [exact H|]. apply (proj1 (sort_fixes_ordered byCreatedAt desc _) H).
Defined.

Lemma inOrder_both k a b :
  inOrder k asc a b -> inOrder k asc b a -> sameKey k a b = true.
Proof.
  destruct k; unfold inOrder, keyLe, sameKey.
  - intros H1 H2. apply Z.eqb_eq. lia.
  - rewrite <- !JSFacts.ltb_LexLt. intros H1 H2.
    apply JSFacts.jsstring_eqb_eq. apply JSFacts.ltb_total.
    + apply not_true_is_false, H2.
    + apply not_true_is_false, H1.
Qed.

(** X15: when no two records of a list have the same key, the descending
    order is the ascending order reversed.  (With ties it is not: records
    with the same key keep the order of the input in both directions.) *)
Theorem descending_is_reverse k l :
  (forall a b, In a l -> In b l -> sameKey k a b = true -> a = b) ->
  sorted (compareFn k desc) l = rev (sorted (compareFn k asc) l).
Proof.
  intros Hd.
  destruct (sorted_compareFn k desc l) as [P1 [S1 _]].
  destruct (sorted_compareFn k asc l) as [P2 [S2 _]].
  apply (StronglySorted_unique (inOrder k desc)).
  - intros a b Ha Hb H1 H2.
    apply (Permutation_in _ (Permutation_sym P1)) in Ha, Hb.
    apply Hd; [exact Ha|exact Hb|]. apply inOrder_both; assumption.
  - apply perm_trans with l; [apply Permutation_sym, P1|].
    apply perm_trans with (sorted (compareFn k asc) l);
      [exact P2|apply Permutation_rev].
  - exact S1.
  - apply (StronglySorted_rev (inOrder k asc)). exact S2.
Qed.

(** X15 at the two records, by title. *)
Lemma descending_is_reverse_witness :
  sorted (compareFn byTitle asc) [first; second] = [second; first] /\
  sorted (compareFn byTitle desc) [first; second] = [first; second].
Proof.
  split; [reflexivity|].
  rewrite (descending_is_reverse byTitle [first; second]); [reflexivity|].
  intros a b [<-|[<-|[]]] [<-|[<-|[]]] H;
    try reflexivity; discriminate H.
Defined.

(** With a tie the two directions agree, so neither is the other
    reversed. *)
Lemma descending_with_tie :
  let a := record 100 "Opening" "one" in
  let b := record 100 "Closing" "two" in
  sorted (compareFn byCreatedAt asc) [a; b] = [a; b] /\
  sorted (compareFn byCreatedAt desc) [a; b] = [a; b].
Proof. split; reflexivity. Qed.

Lemma includes_empty s : includes s [] = true.
Proof. destruct s; reflexivity. Qed.

(** X16: a search string whose lower case is empty keeps every record; with
    a [toLowerCase] that takes the empty string to itself, the empty search
    box shows the whole history, rearranged by the sort. *)
Theorem empty_search_keeps_all toLowerCase term prompts :
  toLowerCase term = [] ->
  filtered toLowerCase term prompts = prompts /\
  forall k o, Permutation prompts (view toLowerCase term k o prompts).
Proof.
  intros H.
  assert (E : filtered toLowerCase term prompts = prompts).
  { unfold filtered. apply (filter_all (matches toLowerCase term) (fun _ => True)).
    - intros p. unfold matches. rewrite H, includes_empty. cbn [orb].
      split; [intros _; exact I|reflexivity].
    - intros p _. exact I. }
  split; [exact E|]. intros k o. unfold view. rewrite E.
  apply sorted_Permutation.
Qed.

(** X16 at the history of the two records, oldest first, with the lower
    case of ASCII: the default view has both, newest first. *)
Lemma empty_search_keeps_all_witness :
  asciiLower [] = [] /\
  filtered asciiLower [] [first; second] = [first; second] /\
  view asciiLower [] byCreatedAt desc [first; second] = [second; first].
Proof.
  split; [reflexivity|].
  split; [apply (empty_search_keeps_all asciiLower [] [first; second] eq_refl)|].
  reflexivity.
Defined.

End HistoryMore.

(** ** More on the application *)

Module AppMore.
Import Spec AppSpec Scenario SortFacts.

Lemma str_inj s t : str s = str t -> s = t.
Proof.
  unfold str. intros H.
  rewrite <- (string_of_list_ascii_of_string s),
          <- (string_of_list_ascii_of_string t).
  f_equal. revert H.
  generalize (list_ascii_of_string s) (list_ascii_of_string t).
  induction l as [|a l IH]; intros [|b l']; cbn [List.map]; try discriminate.
  - reflexivity.
  - intros [= Hab Hl]. f_equal; [|apply IH, Hl].
    rewrite <- (ascii_N_embedding a), <- (ascii_N_embedding b), Hab.
    reflexivity.
Qed.

Lemma to_int_printable n :
  Z.to_int n <> Decimal.Pos Decimal.Nil /\ Z.to_int n <> Decimal.Neg Decimal.Nil.
Proof.
  destruct n as [|p|p]; cbn [Z.to_int]; split; try discriminate;
    intros [= H]; apply (DecimalPos.Unsigned.to_uint_nonnil p H).
Qed.

Lemma toString_eq m n : toString m = toString n -> m = n.
Proof.
  unfold toString. intros H. apply str_inj in H.
  apply DecimalZ.to_int_inj.
  destruct (to_int_printable m) as [M1 M2].
  destruct (to_int_printable n) as [N1 N2].
  pose proof (DecimalString.NilZero.isi _ M1 M2) as Em.
  pose proof (DecimalString.NilZero.isi _ N1 N2) as En.
  rewrite H in Em. rewrite Em in En. injection En as En. exact En.
Qed.

(** X17: [toString] gives different strings for different integers, so two
    sessions started at different clock readings have different ids. *)
Theorem toString_inj m n :
  (toString m = toString n -> m = n) /\
  (m <> n -> forall p q, id (App.handleStart m p) <> id (App.handleStart n q)).
Proof.
  split; [apply toString_eq|]. intros Hne p q H. apply Hne, toString_eq, H.
Qed.

(** X17 at two starts one millisecond apart. *)
Lemma toString_inj_witness :
  id (App.handleStart 1700000000000 first) <>
  id (App.handleStart 1700000000001 first).
Proof.
  apply (proj2 (toString_inj 1700000000000 1700000000001)). discriminate.
Defined.

Lemma delete_spec id p :
  negb (jsstring_eqb (Types.id p) id) = true <-> Types.id p <> id.
Proof.
  rewrite negb_true_iff, <- not_true_iff_false, JSFacts.jsstring_eqb_eq.
  reflexivity.
Qed.

(** X18: a record that is saved and then deleted by its id leaves the
    history as it was, when no record of the history bears that id. *)
Theorem finish_then_delete finished prev :
  (forall q, In q prev -> id q <> id finished) ->
  App.handleDeletePrompt true (id finished)
    (App.handleFinishPrompt finished prev) = prev.
Proof.
  intros H. unfold App.handleDeletePrompt, App.handleFinishPrompt.
  apply (filter_one _ _ (delete_spec (id finished)) [] finished prev).
  - intros E. apply E. reflexivity.
  - exact H.
Qed.

(** X18 at the history of the first record and the second record as the
    one that is saved. *)
Lemma finish_then_delete_witness :
  App.handleDeletePrompt true (id second)
    (App.handleFinishPrompt second [first]) = [first].
Proof.
  apply (finish_then_delete second [first]).
  intros q [<-|[]]. discriminate.
Defined.

Lemma filter_swap {A} (f g : A -> bool) l :
  List.filter f (List.filter g l) = List.filter g (List.filter f l).
Proof.
  induction l as [|x l IH]; [reflexivity|]. cbn [List.filter].
  destruct (g x) eqn:G, (f x) eqn:F; cbn [List.filter]; rewrite ?G, ?F, IH;
    reflexivity.
Qed.

(** X19: after a confirmed delete no record of the history bears the id,
    however many bore it; the history gets no longer; deleting again
    changes nothing; and two deletes give the same history in either
    order. *)
Theorem delete_removes_all id id' prev :
  (forall q, In q (App.handleDeletePrompt true id prev) -> Types.id q <> id) /\
  length (App.handleDeletePrompt true id prev) <= length prev /\
  App.handleDeletePrompt true id (App.handleDeletePrompt true id prev)
    = App.handleDeletePrompt true id prev /\
  App.handleDeletePrompt true id (App.handleDeletePrompt true id' prev)
    = App.handleDeletePrompt true id' (App.handleDeletePrompt true id prev).
Proof.
  unfold App.handleDeletePrompt.
  assert (A : forall q, In q (List.filter (fun p => negb (jsstring_eqb (Types.id p) id)) prev)
                        -> Types.id q <> id).
  { intros q Hq. apply filter_In in Hq. apply delete_spec, Hq. }
  split; [exact A|]. split; [apply filter_length_le|]. split.
  - apply (filter_all _ _ (delete_spec id)). exact A.
  - apply filter_swap.
Qed.

(** *** The history along the life of the application *)

Lemma Chronological_weaken c c' l :
  (c <= c')%Z -> Chronological c l -> Chronological c' l.
Proof.
  intros Hc [H1 H2]. split; [exact H1|].
  apply (Forall_impl _ (P := fun p => id p = toString (createdAt p) /\
                                     (createdAt p <= c)%Z)); [|exact H2].
  intros p [E L]. split; [exact E|lia].
Qed.

Lemma StronglySorted_filter {A} (R : A -> A -> Prop) f l :
  StronglySorted R l -> StronglySorted R (List.filter f l).
Proof.
  induction 1 as [|x l H IH Hx]; cbn [List.filter]; [constructor|].
  destruct (f x); [|exact IH]. constructor; [exact IH|].
  rewrite Forall_forall in Hx |- *. intros y Hy.
  apply filter_In in Hy. apply Hx, Hy.
Qed.

Lemma Forall_filter {A} (P : A -> Prop) f l :
  Forall P l -> Forall P (List.filter f l).
Proof.
  rewrite !Forall_forall. intros H y Hy. apply filter_In in Hy. apply H, Hy.
Qed.

Lemma Chronological_filter f c l :
  Chronological c l -> Chronological c (List.filter f l).
Proof.
  intros [H1 H2]. split; [apply StronglySorted_filter, H1|apply Forall_filter, H2].
Qed.

Lemma Chronological_NoDup c l : Chronological c l -> NoDup (List.map id l).
Proof.
  intros [H1 H2]. induction H1 as [|p l H IH Hp]; cbn [List.map]; [constructor|].
  inversion H2 as [|p' l' [Ep _] H2']; subst.
  constructor; [|apply IH, H2'].
  intros Hin. apply in_map_iff in Hin. destruct Hin as [q [Eq Hq]].
  rewrite Forall_forall in Hp, H2'.
  destruct (H2' q Hq) as [Eq' _]. pose proof (Hp q Hq) as Hlt.
  rewrite Ep, Eq' in Eq. apply toString_eq in Eq. lia.
Qed.

Lemma Chronological_ordered c l :
  Chronological c l ->
  StronglySorted (inOrder HistoryView.byCreatedAt HistoryView.desc) l.
Proof.
  intros [H1 _]. induction H1 as [|p l H IH Hp]; constructor; [exact IH|].
  rewrite Forall_forall in Hp |- *. intros q Hq. cbn. specialize (Hp q Hq). lia.
Qed.

Lemma WellFormed_weaken c c' s :
  (c <= c')%Z -> WellFormed c s -> WellFormed c' s.
Proof.
  intros Hc [H1 H2]. split; [apply (Chronological_weaken c c' _ Hc H1)|].
  intros st Hst. destruct (H2 st Hst) as [A [B C]].
  split; [exact A|]. split; [lia|exact C].
Qed.

Lemma WellFormed_unmounted c v hist p :
  Chronological c hist ->
  WellFormed c {| AppState.view := v; AppState.promptsHistory := hist;
                  AppState.activePrompt := p; AppState.mounted := None |}.
Proof. intros H. split; [exact H|]. intros st E. discriminate E. Qed.

Lemma step_WellFormed e c s :
  (forall now, e <> AppState.EditorStart now) ->
  WellFormed c s -> WellFormed c (AppState.step e s).
Proof.
  intros He H. pose proof H as [H1 H2]. unfold AppState.step.
  destruct (AppState.view s), e; try exact H; try (split; assumption);
    try (exfalso; apply (He now); reflexivity).
  - (* Teleprompter e *)
    destruct (AppState.mounted s) as [st|] eqn:Em; [|exact H].
    split; [exact H1|]. cbn [AppState.mounted AppState.promptsHistory].
    intros st' [= <-]. destruct (H2 st eq_refl) as [A [B C]].
    destruct (TeleprompterMore.step_script e st) as [Ei [_ [_ Ec]]].
    rewrite Ei, Ec. split; [exact A|]. split; [exact B|exact C].
  - (* TeleprompterFinish *)
    destruct (AppState.mounted s) as [st|] eqn:Em; [|exact H].
    destruct (H2 st eq_refl) as [A [B C]]. destruct H1 as [S F].
    apply WellFormed_unmounted. split.
    + constructor; [exact S|exact C].
    + constructor; [split; [exact A|exact B]|exact F].
  - (* TeleprompterBack *)
    unfold AppState.handleBackToEditor. destruct confirmed; [|exact H].
    apply WellFormed_unmounted. exact H1.
  - (* HistoryLoad *)
    destruct (nth_error (AppState.promptsHistory s) index); [|exact H].
    split; assumption.
  - (* HistoryDelete *)
    destruct (nth_error (AppState.promptsHistory s) index) as [p|]; [|exact H].
    unfold AppState.handleDeletePrompt, App.handleDeletePrompt.
    destruct confirmed; [|split; assumption].
    split; [apply Chronological_filter, H1|].
    cbn [AppState.mounted AppState.promptsHistory]. intros st Hst.
    destruct (H2 st Hst) as [A [B C]].
    split; [exact A|]. split; [exact B|apply Forall_filter, C].
Qed.

Lemma start_WellFormed now c s :
  (c < now)%Z -> WellFormed c s ->
  WellFormed now (AppState.step (AppState.EditorStart now) s).
Proof.
  intros Hc H. unfold AppState.step.
  destruct (AppState.view s);
    try (apply (WellFormed_weaken c now); [lia|exact H]).
  destruct H as [[S F] _]. unfold AppState.handleStart. split.
  - apply (Chronological_weaken c now); [lia|split; assumption].
  - cbn [AppState.mounted AppState.promptsHistory]. intros st [= <-].
    cbn. split; [reflexivity|]. split; [lia|].
    apply (Forall_impl _ (P := fun p => id p = toString (createdAt p) /\
                                       (createdAt p <= c)%Z)); [|exact F].
    intros p [_ L]. lia.
Qed.

Lemma run_WellFormed es : forall c s,
  WellFormed c s -> AppState.startsGoUp c es ->
  WellFormed (AppState.lastStart c es) (AppState.run es s).
Proof.
  induction es as [|e es IH]; intros c s H Hes; [exact H|].
  change (AppState.run (e :: es) s) with (AppState.run es (AppState.step e s)).
  destruct e; cbn [AppState.startsGoUp AppState.lastStart] in Hes |- *;
    try (apply IH; [apply step_WellFormed; [intros n E; discriminate E|exact H]
                   |exact Hes]).
  destruct Hes as [Hc Hes]. apply IH; [|exact Hes].
  apply (start_WellFormed now c s Hc H).
Qed.

(** X20: the ids of the history stay distinct and the history stays newest
    first.  If the stored history is chronological and the clock readings of
    the session starts go up, then after any sequence of events no two
    records of the history have the same id, the creation times go down
    along the list, and the sort by date, descending, leaves the list as it
    is. *)
Theorem history_stays_chronological now clock stored es :
  Chronological clock stored -> AppState.startsGoUp clock es ->
  let hist := AppState.promptsHistory (AppState.run es (AppState.init now stored)) in
  NoDup (List.map id hist) /\
  StronglySorted (fun a b => (createdAt b < createdAt a)%Z) hist /\
  HistoryView.sorted
    (HistoryView.compareFn HistoryView.byCreatedAt HistoryView.desc) hist = hist.
Proof.
  intros Hs Hes hist.
  assert (W : WellFormed (AppState.lastStart clock es)
                (AppState.run es (AppState.init now stored))).
  { apply run_WellFormed; [|exact Hes]. apply WellFormed_unmounted. exact Hs. }
  destruct W as [C _]. fold hist in C.
  split; [apply (Chronological_NoDup _ _ C)|]. split; [apply C|].
  apply HistoryMore.compareFn_sorted_ordered.
  apply (Chronological_ordered _ _ C).
Qed.

(** X20 at an empty stored history and two sessions, one after the other:
    the history has the ids of the two starts, the later one first. *)
Lemma history_stays_chronological_witness :
  let es := [AppState.EditorStart 1000;
             AppState.Teleprompter (TeleprompterView.ClickPlayPause 1100);
             AppState.TeleprompterFinish 1900;
             AppState.EditorStart 2000;
             AppState.TeleprompterFinish 2500] in
  let hist := AppState.promptsHistory (AppState.run es (AppState.init 1 [])) in
  Chronological 0 [] /\ AppState.startsGoUp 0 es /\
  List.map id hist = [str "2000"; str "1000"] /\
  NoDup (List.map id hist).
Proof.
  intros es hist.
  assert (C : Chronological 0 []) by (split; constructor).
  assert (G : AppState.startsGoUp 0 es) by (cbn; lia).
  split; [exact C|]. split; [exact G|]. split; [reflexivity|].
  apply (history_stays_chronological 1 0 [] es C G).
Defined.

(** *** A session, from the editor and back *)

Lemma app_run_cons e es s :
  AppState.run (e :: es) s = AppState.run es (AppState.step e s).
Proof. reflexivity. Qed.

Lemma app_run_app es1 es2 s :
  AppState.run (es1 ++ es2) s = AppState.run es2 (AppState.run es1 s).
Proof. apply fold_left_app. Qed.

(** The events of the teleprompter view go to the mounted view. *)
Lemma run_Teleprompter es : forall hist p st,
  AppState.run (List.map AppState.Teleprompter es)
    {| AppState.view := AppState.teleprompter; AppState.promptsHistory := hist;
       AppState.activePrompt := p; AppState.mounted := Some st |}
  = {| AppState.view := AppState.teleprompter; AppState.promptsHistory := hist;
       AppState.activePrompt := p;
       AppState.mounted := Some (TeleprompterView.run es st) |}.
Proof.
  induction es as [|e es IH]; intros hist p st; [reflexivity|].
  cbn [List.map]. rewrite app_run_cons. cbn [AppState.step AppState.view AppState.mounted
    AppState.promptsHistory AppState.activePrompt].
  rewrite IH. reflexivity.
Qed.

(** The start and the events of the teleprompter view. *)
Lemma run_session s t es :
  AppState.view s = AppState.editor ->
  AppState.run (List.map AppState.Teleprompter es)
    (AppState.step (AppState.EditorStart t) s)
  = {| AppState.view := AppState.teleprompter;
       AppState.promptsHistory := AppState.promptsHistory s;
       AppState.activePrompt := App.handleStart t (AppState.activePrompt s);
       AppState.mounted :=
         Some (TeleprompterView.run es
                 (TeleprompterView.mount
                    (App.handleStart t (AppState.activePrompt s)))) |}.
Proof.
  intros Hv.
  assert (E : AppState.step (AppState.EditorStart t) s
              = {| AppState.view := AppState.teleprompter;
                   AppState.promptsHistory := AppState.promptsHistory s;
                   AppState.activePrompt := App.handleStart t (AppState.activePrompt s);
                   AppState.mounted :=
                     Some (TeleprompterView.mount
                             (App.handleStart t (AppState.activePrompt s))) |}).
  { unfold AppState.step. rewrite Hv. reflexivity. }
  rewrite E. apply run_Teleprompter.
Qed.

(** X21: a session, from the editor and back.  Starting at [t], any events
    in the teleprompter view and the finish at [t'] lead back to the editor
    with one more record at the head of the history (the record that the
    view emits) and with the prompt of the editor as it was at the start:
    what the session changes in the settings is saved in the record and
    does not reach the editor.  When the user leaves with a confirmed back
    instead, the history is as it was. *)
Theorem session_round s t es t' :
  AppState.view s = AppState.editor ->
  let p := App.handleStart t (AppState.activePrompt s) in
  AppState.run (AppState.EditorStart t :: List.map AppState.Teleprompter es ++
                [AppState.TeleprompterFinish t']) s
  = {| AppState.view := AppState.editor;
       AppState.promptsHistory :=
         TeleprompterView.handleFinish t'
           (TeleprompterView.run es (TeleprompterView.mount p))
         :: AppState.promptsHistory s;
       AppState.activePrompt := p; AppState.mounted := None |} /\
  AppState.run (AppState.EditorStart t :: List.map AppState.Teleprompter es ++
                [AppState.TeleprompterBack true]) s
  = {| AppState.view := AppState.editor;
       AppState.promptsHistory := AppState.promptsHistory s;
       AppState.activePrompt := p; AppState.mounted := None |}.
Proof.
  intros Hv p. rewrite !app_run_cons, !app_run_app.
  unfold p. rewrite (run_session s t es Hv). split; reflexivity.
Qed.

(** X21 at the new application: the speed is set to 7 in the session; the
    record has the speed 7 and the editor still has the speed 2. *)
Lemma session_round_witness :
  let s := AppState.init 1 [] in
  let s' := AppState.run
              (AppState.EditorStart 1000 ::
               List.map AppState.Teleprompter
                 [TeleprompterView.ClickPlayPause 1100; TeleprompterView.ChangeSpeed 7]
               ++ [AppState.TeleprompterFinish 1900]) s in
  AppState.view s = AppState.editor /\
  List.map (fun r => speed (settings r)) (AppState.promptsHistory s') = [7%Q] /\
  speed (settings (AppState.activePrompt s')) = 2%Q /\
  AppState.view s' = AppState.editor.
Proof.
  intros s s'. split; [reflexivity|]. subst s'.
  rewrite (proj1 (session_round s 1000
                    [TeleprompterView.ClickPlayPause 1100;
                     TeleprompterView.ChangeSpeed 7] 1900 eq_refl)).
  repeat split.
Defined.

(** X22: loading a record, starting and finishing puts a copy at the head of
    the history: the copy has the title, the text and the settings of the
    loaded record, the id and the creation time of the start, no start time
    and the end time of the finish; the record that was loaded and the rest
    of the history are as they were. *)
Theorem load_start_finish s index p t t1 t2 :
  AppState.view s = AppState.history ->
  nth_error (AppState.promptsHistory s) index = Some p ->
  exists copy,
    AppState.promptsHistory
      (AppState.run [AppState.HistoryLoad t index; AppState.EditorStart t1;
                     AppState.TeleprompterFinish t2] s)
    = copy :: AppState.promptsHistory s /\
    title copy = title p /\ text copy = text p /\ settings copy = settings p /\
    id copy = toString t1 /\ createdAt copy = t1 /\
    startTime copy = None /\ endTime copy = Some t2.
Proof.
  intros Hv Hp. rewrite !app_run_cons. cbn [AppState.run fold_left].
  assert (E : AppState.step (AppState.HistoryLoad t index) s
              = AppState.loadTimeout p (AppState.handleLoadPrompt t p s)).
  { unfold AppState.step. rewrite Hv, Hp. reflexivity. }
  rewrite E. eexists. split; [reflexivity|]. repeat split.
Qed.

(** X22 at the history of the two records, loading the second. *)
Lemma load_start_finish_witness :
  let s := AppState.setView AppState.history (AppState.init 1 [first; second]) in
  let s' := AppState.run [AppState.HistoryLoad 500 1; AppState.EditorStart 600;
                          AppState.TeleprompterFinish 700] s in
  List.map title (AppState.promptsHistory s') = [title second; title first; title second] /\
  List.map id (AppState.promptsHistory s') = [str "600"; str "100"; str "200"].
Proof.
  intros s s'.
  destruct (load_start_finish s 1 second 500 600 700 eq_refl eq_refl)
    as [copy [E [Ht [_ [_ [Ei _]]]]]].
  subst s'. rewrite E. cbn [List.map]. rewrite Ht, Ei. split; reflexivity.
Defined.

Lemma step_keeps_history e s :
  changesHistory e = false ->
  AppState.promptsHistory (AppState.step e s) = AppState.promptsHistory s.
Proof.
  intros He. unfold AppState.step.
  destruct (AppState.view s), e; try reflexivity; try discriminate He.
  - destruct (AppState.mounted s); reflexivity.
  - unfold AppState.handleBackToEditor. destruct confirmed; reflexivity.
  - destruct (nth_error (AppState.promptsHistory s) index); reflexivity.
Qed.

(** X23: only a finish and a delete change the history.  Editing, starting,
    the events of the teleprompter view, leaving it, loading a record and
    changing the view leave the history, and so every record in it, as it
    was. *)
Theorem history_changes_only es : forall s,
  forallb (fun e => negb (changesHistory e)) es = true ->
  AppState.promptsHistory (AppState.run es s) = AppState.promptsHistory s.
Proof.
  induction es as [|e es IH]; intros s Hes; [reflexivity|].
  cbn [forallb] in Hes. apply andb_prop in Hes. destruct Hes as [He Hes].
  apply negb_true_iff in He.
  rewrite app_run_cons, (IH _ Hes). apply step_keeps_history, He.
Qed.

(** X23 at a session that is left without saving and a record that is
    loaded. *)
Lemma history_changes_only_witness :
  let es := [AppState.EditorEdit (EditorView.TypeTitle (str "Draft"));
             AppState.EditorStart 1000;
             AppState.Teleprompter (TeleprompterView.KeySpace 1100);
             AppState.TeleprompterBack true;
             AppState.EditorViewHistory;
             AppState.HistoryLoad 2000 0] in
  AppState.promptsHistory (AppState.run es (AppState.init 1 [first; second]))
  = [first; second].
Proof.
  intros es. apply (history_changes_only es (AppState.init 1 [first; second])).
  reflexivity.
Defined.

(** *** From the editor to the record *)

Lemma run_EditorEdit edits : forall s,
  AppState.view s = AppState.editor ->
  AppState.run (List.map AppState.EditorEdit edits) s
  = AppState.onPromptChange (edited edits (AppState.activePrompt s)) s.
Proof.
  induction edits as [|e edits IH]; intros s Hv.
  - destruct s. reflexivity.
  - cbn [List.map]. rewrite app_run_cons.
    assert (E : AppState.step (AppState.EditorEdit e) s
                = AppState.onPromptChange
                    (EditorView.edit e (AppState.activePrompt s)) s).
    { unfold AppState.step. rewrite Hv. reflexivity. }
    rewrite E, IH by exact Hv. reflexivity.
Qed.

Lemma edit_keeps e p :
  id (EditorView.edit e p) = id p /\
  createdAt (EditorView.edit e p) = createdAt p /\
  startTime (EditorView.edit e p) = startTime p /\
  endTime (EditorView.edit e p) = endTime p /\
  speed (settings (EditorView.edit e p)) = speed (settings p) /\
  fontSize (settings (EditorView.edit e p)) = fontSize (settings p) /\
  fontStyle (settings (EditorView.edit e p)) = fontStyle (settings p) /\
  alignment (settings (EditorView.edit e p)) = alignment (settings p) /\
  mode (settings (EditorView.edit e p)) = mode (settings p).
Proof. destruct e; repeat split; reflexivity. Qed.

(** X24: the editor changes the title, the text and the direction only.
    After any sequence of edits the prompt has the id, the creation time,
    the timestamps, the speed, the font size, the font style, the alignment
    and the mode it had; and after an edit of the text and any edits of the
    title and the direction, the text is the one that was typed. *)
Theorem edits_keep_the_rest edits p :
  (id (edited edits p) = id p /\
   createdAt (edited edits p) = createdAt p /\
   startTime (edited edits p) = startTime p /\
   endTime (edited edits p) = endTime p /\
   speed (settings (edited edits p)) = speed (settings p) /\
   fontSize (settings (edited edits p)) = fontSize (settings p) /\
   fontStyle (settings (edited edits p)) = fontStyle (settings p) /\
   alignment (settings (edited edits p)) = alignment (settings p) /\
   mode (settings (edited edits p)) = mode (settings p)) /\
  (forall v more,
     Forall (fun e => forall w, e <> EditorView.TypeText w) more ->
     text (edited (edits ++ EditorView.TypeText v :: more) p) = v).
Proof.
  split.
  - revert p. induction edits as [|e edits IH]; intros p;
      [repeat split; reflexivity|].
    unfold edited in *. cbn [fold_left].
    destruct (IH (EditorView.edit e p)) as [A [B [C [D [E [F [G [H I]]]]]]]].
    destruct (edit_keeps e p) as [A' [B' [C' [D' [E' [F' [G' [H' I']]]]]]]].
    rewrite A, B, C, D, E, F, G, H, I. repeat split; assumption.
  - intros v more Hm. unfold edited. rewrite fold_left_app. cbn [fold_left].
    generalize (fold_left (fun q e => EditorView.edit e q) edits p). intros q.
    assert (G : forall r, text (fold_left (fun q e => EditorView.edit e q) more r)
                          = text r).
    { induction Hm as [|e more He _ IH]; intros r; [reflexivity|].
      cbn [fold_left]. rewrite IH.
      destruct e; try reflexivity. exfalso. apply (He value). reflexivity. }
    rewrite G. reflexivity.
Qed.

(** X24 at a new prompt: a title, a text, the direction and a title
    again. *)
Lemma edits_keep_the_rest_witness :
  let more := [EditorView.SelectDirection rtl; EditorView.TypeTitle (str "Speech")] in
  let p := edited (EditorView.TypeTitle (str "Draft") ::
                   EditorView.TypeText (str "Dear all") :: more)
                  (createNewPrompt 5 DEFAULT_SETTINGS) in
  Forall (fun e => forall w, e <> EditorView.TypeText w) more /\
  text p = str "Dear all" /\ title p = str "Speech" /\
  direction (settings p) = rtl /\ id p = str "5".
Proof.
  intros more p.
  assert (Hm : Forall (fun e => forall w, e <> EditorView.TypeText w) more)
    by (repeat constructor; intros w E; discriminate E).
  split; [exact Hm|]. split.
  - apply (proj2 (edits_keep_the_rest [EditorView.TypeTitle (str "Draft")]
                    (createNewPrompt 5 DEFAULT_SETTINGS))
             (str "Dear all") more Hm).
  - repeat split.
Defined.

(** X25: what is typed is what is saved.  From the editor, any edits, the
    start at [t], any events of the teleprompter view and the finish put at
    the head of the history a record with the title and the text of the
    edited prompt and the id of the start. *)
Theorem edited_prompt_is_saved s edits t es t' :
  AppState.view s = AppState.editor ->
  exists record,
    AppState.promptsHistory
      (AppState.run (List.map AppState.EditorEdit edits ++
                     AppState.EditorStart t ::
                     List.map AppState.Teleprompter es ++
                     [AppState.TeleprompterFinish t']) s)
    = record :: AppState.promptsHistory s /\
    title record = title (edited edits (AppState.activePrompt s)) /\
    text record = text (edited edits (AppState.activePrompt s)) /\
    id record = toString t /\ createdAt record = t /\ endTime record = Some t'.
Proof.
  intros Hv. rewrite app_run_app, (run_EditorEdit edits s Hv), app_run_cons, app_run_app.
  rewrite run_session by exact Hv.
  cbn [AppState.run fold_left AppState.step AppState.view AppState.mounted
       AppState.handleFinishPrompt AppState.promptsHistory
       App.handleFinishPrompt AppState.onPromptChange AppState.activePrompt].
  eexists. split; [reflexivity|].
  cbn [TeleprompterView.handleFinish id title text createdAt endTime].
  set (p := App.handleStart t (edited edits (AppState.activePrompt s))).
  destruct (TeleprompterMore.run_script es (TeleprompterView.mount p))
    as [A [B [C D]]].
  rewrite A, B, C, D. repeat split.
Qed.

(** X25 at the new application: a title and a text are typed, the session
    is played and finished. *)
Lemma edited_prompt_is_saved_witness :
  let s' := AppState.run
              (List.map AppState.EditorEdit
                 [EditorView.TypeTitle (str "Speech"); EditorView.TypeText (str "Dear all")]
               ++ AppState.EditorStart 1000 ::
               List.map AppState.Teleprompter [TeleprompterView.ClickPlayPause 1100]
               ++ [AppState.TeleprompterFinish 1900])
              (AppState.init 1 [first]) in
  List.map text (AppState.promptsHistory s') = [str "Dear all"; text first] /\
  List.map title (AppState.promptsHistory s') = [str "Speech"; title first].
Proof.
  intros s'.
  destruct (edited_prompt_is_saved (AppState.init 1 [first])
              [EditorView.TypeTitle (str "Speech"); EditorView.TypeText (str "Dear all")]
              1000 [TeleprompterView.ClickPlayPause 1100] 1900 eq_refl)
    as [record [E [Ht [Hx _]]]].
  subst s'. rewrite E. cbn [List.map]. rewrite Ht, Hx. split; reflexivity.
Defined.

(** *** The duration on a card of the history *)

Lemma roundSeconds_near n :
  (n - 500 < 1000 * HistoryCard.roundSeconds n <= n + 500)%Z.
Proof.
  unfold HistoryCard.roundSeconds.
  pose proof (Z.div_mod (n + 500) 1000) as H.
  pose proof (Z.mod_pos_bound (n + 500) 1000) as B. lia.
Qed.

(** X26: the duration on the card of a saved session.  A session finished
    without a press of play shows no duration.  A session played on the
    button at [t] and finished at [now] (clock readings other than 0) shows
    [now - t] in seconds, rounded to the nearest second: the label is
    within half a second of the time from the first play to the finish. *)
Theorem duration_of_session p now :
  (forall es,
     forallb (fun e => negb (TeleprompterView.isToggle e)) es = true ->
     HistoryCard.duration
       (TeleprompterView.handleFinish now
          (TeleprompterView.run es (TeleprompterView.mount p)))
     = HistoryCard.Nothing) /\
  (forall before t after,
     forallb (fun e => negb (TeleprompterView.isToggle e)) before = true ->
     t <> 0%Z -> Forall TeleprompterSpec.notSpaceKey after -> now <> 0%Z ->
     exists seconds,
       HistoryCard.duration
         (TeleprompterView.handleFinish now
            (TeleprompterView.run
               (before ++ TeleprompterView.ClickPlayPause t :: after)
               (TeleprompterView.mount p)))
       = HistoryCard.Duration seconds /\
       (now - t - 500 < 1000 * seconds <= now - t + 500)%Z).
Proof.
  split.
  - intros es Hes. unfold HistoryCard.duration.
    cbn [TeleprompterView.handleFinish startTime].
    rewrite (TeleprompterFacts.run_keeps_unset es (TeleprompterView.mount p)
               Hes eq_refl).
    reflexivity.
  - intros before t after Hb Ht Ha Hn.
    exists (HistoryCard.roundSeconds (now - t)). split; [|apply roundSeconds_near].
    unfold HistoryCard.duration.
    cbn [TeleprompterView.handleFinish startTime endTime].
    rewrite (TeleprompterMore.startTime_button_session p before t after Hb Ht Ha).
    destruct (Z.eqb_spec t 0); [contradiction|].
    destruct (Z.eqb_spec now 0); [contradiction|]. reflexivity.
Qed.

(** X26 at a session played at 1000 and finished at 63600: 63 seconds. *)
Lemma duration_of_session_witness :
  HistoryCard.duration
    (TeleprompterView.handleFinish 63600
       (TeleprompterView.run
          ([TeleprompterView.KeyArrowUp] ++
           TeleprompterView.ClickPlayPause 1000 ::
           [TeleprompterView.Frame 300; TeleprompterView.ClickPlayPause 30000])
          (TeleprompterView.mount first)))
  = HistoryCard.Duration 63 /\
  HistoryCard.duration
    (TeleprompterView.handleFinish 63600
       (TeleprompterView.run [TeleprompterView.KeyArrowUp]
          (TeleprompterView.mount first)))
  = HistoryCard.Nothing.
Proof.
  destruct (duration_of_session first 63600) as [A B]. split.
  - destruct (B [TeleprompterView.KeyArrowUp] 1000%Z
                [TeleprompterView.Frame 300; TeleprompterView.ClickPlayPause 30000]
                eq_refl) as [seconds [E _]].
    + discriminate.
    + repeat constructor; intros n H; discriminate H.
    + discriminate.
    + reflexivity.
  - apply (A [TeleprompterView.KeyArrowUp] eq_refl).
Defined.

End AppMore.

(** ** The search of the history view *)

Module SearchFacts.
Import Spec HistoryView Scenario SortFacts Lowercase.

(** C7, at a Greek title.  The title of the record is the capitals alpha
    and sigma, and the search string is the capital sigma: the title holds
    the search string as it is.  In lower case the sigma of the title, at
    the end of a word, is the final sigma, and the sigma of the search
    string is the other small sigma, so [includes] does not find it: the
    filter drops the record and the view is empty. *)
Theorem final_sigma_title_not_found :
  includes (title greek) [CAPITAL_SIGMA] = true /\
  toLowerCase (title greek) = [945; FINAL_SIGMA]%N /\
  toLowerCase [CAPITAL_SIGMA] = [SMALL_SIGMA] /\
  matches toLowerCase [CAPITAL_SIGMA] greek = false /\
  filtered toLowerCase [CAPITAL_SIGMA] [first; greek; second] = [] /\
  forall k o, view toLowerCase [CAPITAL_SIGMA] k o [first; greek; second] = [].
Proof.
  repeat split.
Qed.

(** *** Texts of Basic Latin characters *)

Lemma lowerFrom_basicLatin s : forall casedBefore,
  basicLatin s -> lowerFrom casedBefore s = List.map lowerLatin s.
Proof.
  induction s as [|c s IH]; intros b H; [reflexivity|].
  inversion H as [|c' s' Hc Hs]; subst. cbn [lowerFrom List.map].
  rewrite (IH _ Hs). f_equal.
  unfold CAPITAL_SIGMA, lowerUnit, lowerLatin, isGreekCapital.
  destruct (N.eqb_spec c 931); [lia|].
  destruct (N.leb_spec 913 c); [lia|].
  cbn [andb]. rewrite orb_false_r. reflexivity.
Qed.

Lemma lowerLatin_sameLetter c d : lowerLatin c = lowerLatin d <-> sameLetter c d.
Proof.
  unfold lowerLatin, isLatinCapital, sameLetter.
  destruct (N.leb_spec 65 c), (N.leb_spec c 90), (N.leb_spec 65 d),
           (N.leb_spec d 90); cbn [andb]; lia.
Qed.

Lemma map_lowerLatin_Forall2 mid : forall needle,
  List.map lowerLatin mid = List.map lowerLatin needle <->
  Forall2 sameLetter mid needle.
Proof.
  induction mid as [|c mid IH]; intros [|d needle]; cbn [List.map]; split;
    intros H; try discriminate H; try (inversion H; fail); try constructor.
  - injection H as Hc _. apply lowerLatin_sameLetter, Hc.
  - injection H as _ Hm. apply IH, Hm.
  - inversion H as [|c' d' mid' needle' Hc Hm]; subst.
    f_equal; [apply lowerLatin_sameLetter, Hc|apply IH, Hm].
Qed.

(** [includes] on the lower cases finds the occurrences up to the case of
    the letters. *)
Lemma includes_lowerLatin hay needle :
  includes (List.map lowerLatin hay) (List.map lowerLatin needle) = true <->
  ContainsIgnoringCase hay needle.
Proof.
  rewrite JSFacts.includes_spec. unfold ContainsIgnoringCase. split.
  - intros [pre' [post' E]].
    apply map_eq_app in E. destruct E as [pre [rest [-> [_ E]]]].
    apply map_eq_app in E. destruct E as [mid [post [-> [E _]]]].
    exists pre, mid, post. split; [reflexivity|].
    apply map_lowerLatin_Forall2, E.
  - intros [pre [mid [post [-> H]]]].
    exists (List.map lowerLatin pre), (List.map lowerLatin post).
    rewrite !map_app. apply map_lowerLatin_Forall2 in H. rewrite H. reflexivity.
Qed.

Lemma filter_Keeps_on {A} (f : A -> bool) (P : A -> Prop) l :
  (forall x, In x l -> (f x = true <-> P x)) -> Keeps P l (List.filter f l).
Proof.
  induction l as [|x l IH]; intros H; cbn [List.filter]; [constructor|].
  assert (IH' : Keeps P l (List.filter f l))
    by (apply IH; intros y Hy; apply H; right; exact Hy).
  destruct (f x) eqn:E.
  - apply Keeps_keep; [apply (H x (or_introl eq_refl)), E|exact IH'].
  - apply Keeps_drop; [|exact IH']. intros HP.
    apply (H x (or_introl eq_refl)) in HP. congruence.
Qed.

(** X27: on texts of Basic Latin characters the search ignores the case of
    the letters and nothing else.  When the search string and the titles
    and bodies of the records hold Basic Latin characters only, the filter
    keeps the records whose title or body has an occurrence of the search
    string up to the case of the letters A to Z, and no others, in the
    order of the history. *)
Theorem basic_latin_search term prompts :
  basicLatin term ->
  Forall (fun p => basicLatin (title p) /\ basicLatin (text p)) prompts ->
  Keeps (fun p => ContainsIgnoringCase (title p) term \/
                  ContainsIgnoringCase (text p) term)
        prompts (filtered toLowerCase term prompts) /\
  forall k o, Permutation (filtered toLowerCase term prompts)
                          (view toLowerCase term k o prompts).
Proof.
  intros Ht Hp. split; [|intros k o; apply sorted_Permutation].
  apply filter_Keeps_on. intros p Hin.
  rewrite Forall_forall in Hp. destruct (Hp p Hin) as [H1 H2].
  unfold matches, toLowerCase.
  rewrite !lowerFrom_basicLatin by assumption.
  rewrite orb_true_iff, !includes_lowerLatin. reflexivity.
Qed.

(** X27 at the history of the two records: [GOODBYE] is in the body of the
    second record, in small letters. *)
Lemma basic_latin_search_witness :
  basicLatin (str "GOODBYE") /\
  Forall (fun p => basicLatin (title p) /\ basicLatin (text p)) [first; second] /\
  ContainsIgnoringCase (text second) (str "GOODBYE") /\
  filtered toLowerCase (str "GOODBYE") [first; second] = [second] /\
  Keeps (fun p => ContainsIgnoringCase (title p) (str "GOODBYE") \/
                  ContainsIgnoringCase (text p) (str "GOODBYE"))
        [first; second] [second].
Proof.
  assert (Ht : basicLatin (str "GOODBYE"))
    by (repeat constructor).
  assert (Hp : Forall (fun p => basicLatin (title p) /\ basicLatin (text p))
                      [first; second])
    by (repeat constructor).
  split; [exact Ht|]. split; [exact Hp|]. split.
  - apply includes_lowerLatin. reflexivity.
  - split; [reflexivity|].
    apply (proj1 (basic_latin_search (str "GOODBYE") [first; second] Ht Hp)).
Defined.

End SearchFacts.

(** ** The scroll loop in double precision *)

Module ScrollLoopFacts.
Import ScrollLoop.







End ScrollLoopFacts.
